(** * DevSocket: the log relay server

    A shallow embedding of the Go server of DevSocket (package [main]:
    [Server], [Session], [LogEntry] and the handlers [handleStream],
    [broadcastToTail], [handleTail], [handleLogs], [handleHealth]) and
    the properties of its registry, fan-out and filter engine.

    Conventions of the embedding:
    - a [time.Time] is an instant in nanoseconds, an unbounded [Z]; the
      zero value of [time.Time] is [0]; every handler receives the
      reading of [time.Now()] as its argument [now]; a [time.Duration]
      is an [int64] of nanoseconds, and its negation wraps;
    - a [*websocket.Conn] is a handle [conn_id] into the store of
      connections of the server, a [*Session] is a location [loc] in a
      heap of sessions, so that the aliasing of the Go program (a
      goroutine keeps the pointer of a session that the registry has
      replaced) is kept;
    - the functions of the Go standard library that the handlers call
      ([json.Unmarshal], [json.Marshal], [Time.Format],
      [time.ParseDuration], [regexp.Compile]) are the fields of the class
      [GoLib];
    - the goroutines of the connections are interleaved: an [Event] is
      what a handler does in one go, a [Step] is an event or one of the
      two critical sections of a frame of a producer, the append of the
      entry and its broadcast, between which other handlers can
      run. *)

From Stdlib Require Import ZArith Ascii.
From stdpp Require Import gmap strings list fin_maps pretty.

(** ** Data model *)

Definition Time := Z.
Definition Duration := Z.
Abbreviation conn_id := nat (only parsing).
Abbreviation loc := nat (only parsing).
Bind Scope Z_scope with Time Duration.

(** [LogEntry]: a single log message from a device. *)
Record LogEntry := mkLogEntry {
  Timestamp : Time;
  Message : string
}.

(** A call that returns [(value, error)] in Go. *)
Inductive result (A : Type) :=
| Ok (a : A)
| Err (e : string).
Arguments Ok {A} a.
Arguments Err {A} e.

(** The JSON values the server encodes. *)
#[local] Unset Elimination Schemes.
Inductive json :=
| JString (s : string)
| JNumber (n : Z)
| JArray (l : list json)
| JObject (fields : list (string * json)).
#[local] Set Elimination Schemes.

(** The part of the Go standard library the server calls.  A compiled
    regular expression is represented by its [MatchString] method.
    [ParseDuration_empty] records that [time.ParseDuration] reports an
    error on the empty string. *)
Class GoLib := {
  json_Unmarshal : string -> result LogEntry;
  json_Marshal : json -> string;
  time_Format : string -> Time -> string;
  time_ParseDuration : string -> result Duration;
  regexp_Compile : string -> result (string -> bool);
  ParseDuration_empty : forall d, time_ParseDuration "" <> Ok d
}.

(** [Time.IsZero], [Time.After], [Time.Add]. *)
Definition IsZero (t : Time) : bool := (t =? 0)%Z.
Definition After (t u : Time) : bool := (u <? t)%Z.
Definition Add (t : Time) (d : Duration) : Time := (t + d)%Z.

(** A [time.Duration] is an [int64]: its arithmetic is two's complement.
    [neg_Duration d] is the Go expression [-d]; the least duration,
    [-2^63], is its own negation. *)
Definition MinDuration : Duration := (- 2 ^ 63)%Z.
Definition MaxDuration : Duration := (2 ^ 63 - 1)%Z.
Definition wrap_int64 (z : Z) : Z := ((z + 2 ^ 63) mod 2 ^ 64 - 2 ^ 63)%Z.
Definition neg_Duration (d : Duration) : Duration := wrap_int64 (- d).

Definition RFC3339 : string := "2006-01-02T15:04:05Z07:00".
Definition RFC3339Nano : string := "2006-01-02T15:04:05.999999999Z07:00".
Definition nl : string := String (Ascii.ascii_of_nat 10) EmptyString.

(** A websocket connection as the server sees it: whether [Close] was
    called on it, the frames [WriteMessage] delivered to the peer, and
    the number of calls of [WriteMessage] on it. *)
Record Conn := mkConn {
  closed : bool;
  inbox : list string;
  writes : nat
}.

(** [Session]: a connected device's debug session. *)
Record Session := mkSession {
  DeviceHash : string;
  Name : string;
  IPv4 : string;
  IPv6 : string;
  Connected : Time;
  Logs : list LogEntry;
  LogCount : nat;
  conn : option conn_id;
  tailConns : list conn_id
}.

(** [Server]: the registry [sessions] maps a device hash to a session
    pointer; [heap] holds the sessions the pointers refer to and [conns]
    the connections. *)
Record Server := mkServer {
  sessions : gmap string loc;
  heap : list Session;
  conns : list Conn;
  secret : string
}.

Definition NewServer (secret : string) : Server :=
  {| sessions := ∅; heap := []; conns := []; secret := secret |}.

(** ** Requests and responses *)

(** The request: the path of the URL and its query, in the order of the
    URL. *)
Record Request := mkRequest {
  path : string;
  query : list (string * string)
}.

(** [r.URL.Query().Get(key)]: the first value of the key, or the empty
    string. *)
Fixpoint Get (q : list (string * string)) (key : string) : string :=
  match q with
  | [] => ""
  | (k, v) :: q' => if String.eqb k key then v else Get q' key
  end.

Record Response := mkResponse {
  status : nat;
  content_type : string;
  body : string
}.

Definition StatusOK : nat := 200.
Definition StatusBadRequest : nat := 400.
Definition StatusUnauthorized : nat := 401.
Definition StatusNotFound : nat := 404.

(** [http.Error(w, msg, code)]. *)
Definition http_Error (msg : string) (code : nat) : Response :=
  {| status := code;
     content_type := "text/plain; charset=utf-8";
     body := msg +:+ nl |}.

(** [strings.TrimPrefix] and [strings.TrimSuffix]. *)
Definition TrimPrefix (s prefix : string) : string :=
  if String.prefix prefix s
  then String.substring (String.length prefix)
         (String.length s - String.length prefix)%nat s
  else s.

Definition HasSuffix (s suffix : string) : bool :=
  Nat.leb (String.length suffix) (String.length s) &&
  String.eqb
    (String.substring (String.length s - String.length suffix)%nat
       (String.length suffix) s)
    suffix.

Definition TrimSuffix (s suffix : string) : string :=
  if HasSuffix s suffix
  then String.substring 0 (String.length s - String.length suffix)%nat s
  else s.

(** [checkSecret] validates the shared secret from the query. *)
Definition checkSecret (s : Server) (r : Request) : bool :=
  String.eqb (Get (query r) "secret") (secret s).

(** The session a device hash resolves to: the registry lookup followed
    by the dereference of the pointer. *)
Definition lookup_session (s : Server) (deviceHash : string) : option Session :=
  match sessions s !! deviceHash with
  | Some l => heap s !! l
  | None => None
  end.

Section Handlers.
Context {go : GoLib}.

(** The JSON form of a [LogEntry], after its struct tags. *)
Definition LogEntry_json (e : LogEntry) : json :=
  JObject [("ts", JString (time_Format RFC3339Nano (Timestamp e)));
           ("msg", JString (Message e))].

(** ** The query handlers *)

(** The [since] block of [handleLogs]. *)
Definition sinceFilter (now : Time) (sinceStr : string) (logs : list LogEntry)
  : result (list LogEntry) :=
  if String.eqb sinceStr "" then Ok logs
  else
    match time_ParseDuration sinceStr with
    | Err e => Err e
    | Ok duration =>
        let cutoff := Add now (neg_Duration duration) in
        Ok (filter (fun entry => After (Timestamp entry) cutoff) logs)
    end.

(** The [regex] block of [handleLogs]. *)
Definition regexFilter (regexPattern : string) (logs : list LogEntry)
  : result (list LogEntry) :=
  if String.eqb regexPattern "" then Ok logs
  else
    match regexp_Compile regexPattern with
    | Err e => Err e
    | Ok re => Ok (filter (fun entry => re (Message entry)) logs)
    end.

(** The lines [fmt.Fprintf(w, "%s  %s\n", ...)] writes. *)
Fixpoint render_text (logs : list LogEntry) : string :=
  match logs with
  | [] => ""
  | entry :: logs' =>
      time_Format "2006-01-02 15:04:05.000" (Timestamp entry) +:+ "  " +:+
      Message entry +:+ nl +:+ render_text logs'
  end.

(** [json.NewEncoder(w).Encode(logs)]. *)
Definition render_json (logs : list LogEntry) : string :=
  json_Marshal (JArray (LogEntry_json <$> logs)) +:+ nl.

(** [handleLogs] returns the logs of a device with optional filtering. *)
Definition handleLogs (now : Time) (s : Server) (r : Request) : Response :=
  if negb (checkSecret s r) then http_Error "Unauthorized" StatusUnauthorized
  else
    let path := TrimPrefix (path r) "/logs/" in
    let deviceHash := TrimSuffix path "/" in
    if String.eqb deviceHash "" then
      http_Error "Missing device hash in path" StatusBadRequest
    else
      match lookup_session s deviceHash with
      | None => http_Error "Device not found" StatusNotFound
      | Some session =>
          let regexPattern := Get (query r) "regex" in
          let sinceStr := Get (query r) "since" in
          let logs := Logs session in
          match sinceFilter now sinceStr logs with
          | Err e =>
              http_Error ("Invalid since parameter: " +:+ e) StatusBadRequest
          | Ok logs =>
              match regexFilter regexPattern logs with
              | Err e => http_Error ("Invalid regex: " +:+ e) StatusBadRequest
              | Ok logs =>
                  if String.eqb (Get (query r) "format") "text" then
                    {| status := StatusOK;
                       content_type := "text/plain";
                       body := render_text logs |}
                  else
                    {| status := StatusOK;
                       content_type := "application/json";
                       body := render_json logs |}
              end
          end
      end.

(** [handleHealth] returns the health check.  The keys of a Go map are
    encoded in sorted order. *)
Definition handleHealth (now : Time) (s : Server) (r : Request) : Response :=
  if negb (checkSecret s r) then http_Error "Unauthorized" StatusUnauthorized
  else
    let deviceCount := size (sessions s) in
    {| status := StatusOK;
       content_type := "application/json";
       body :=
         json_Marshal
           (JObject [("devices", JNumber (Z.of_nat deviceCount));
                     ("status", JString "ok");
                     ("ts", JString (time_Format RFC3339 now))]) +:+ nl |}.

(** ** Connections *)

(** [conn.Close()]. *)
Definition Close (c : conn_id) (cs : list Conn) : list Conn :=
  alter (fun k => {| closed := true; inbox := inbox k; writes := writes k |})
    c cs.

(** [conn.WriteMessage(websocket.TextMessage, msg)] under its write
    deadline.  [accept] tells whether the peer takes the frame before the
    deadline; a write on a closed connection fails.  The first component
    is [true] when the call returns no error. *)
Definition WriteMessage (accept : bool) (c : conn_id) (msg : string)
    (cs : list Conn) : bool * list Conn :=
  match cs !! c with
  | Some k =>
      let ok := accept && negb (closed k) in
      (ok,
       <[c := {| closed := closed k;
                 inbox := if ok then inbox k ++ [msg] else inbox k;
                 writes := S (writes k) |}]> cs)
  | None => (false, cs)
  end.

(** [s.upgrader.Upgrade(w, r, nil)] when it succeeds: a new
    connection. *)
Definition Upgrade (cs : list Conn) : conn_id * list Conn :=
  (length cs, cs ++ [{| closed := false; inbox := []; writes := 0 |}]).

(** ** Updates of a session through its pointer *)

Definition append_log (entry : LogEntry) (session : Session) : Session :=
  {| DeviceHash := DeviceHash session; Name := Name session;
     IPv4 := IPv4 session; IPv6 := IPv6 session;
     Connected := Connected session;
     Logs := Logs session ++ [entry];
     LogCount := length (Logs session ++ [entry]);
     conn := conn session; tailConns := tailConns session |}.

Definition set_tailConns (tcs : list conn_id) (session : Session) : Session :=
  {| DeviceHash := DeviceHash session; Name := Name session;
     IPv4 := IPv4 session; IPv6 := IPv6 session;
     Connected := Connected session;
     Logs := Logs session; LogCount := LogCount session;
     conn := conn session; tailConns := tcs |}.

(** ** The broadcast engine *)

(** The first loop of [broadcastToTail]: one write per tail consumer,
    the consumers whose write fails are collected in [deadConns]. *)
Fixpoint write_loop (accept : conn_id -> bool) (msg : string)
    (tcs deadConns : list conn_id) (cs : list Conn)
  : list conn_id * list Conn :=
  match tcs with
  | [] => (deadConns, cs)
  | c :: tcs' =>
      let '(ok, cs') := WriteMessage (accept c) c msg cs in
      write_loop accept msg tcs' (if ok then deadConns else deadConns ++ [c]) cs'
  end.

(** The inner loop of the clean-up: the first occurrence of [dead] is
    cut out of [tailConns] and closed. *)
Fixpoint remove_dead (dead : conn_id) (tcs : list conn_id) (cs : list Conn)
  : list conn_id * list Conn :=
  match tcs with
  | [] => ([], cs)
  | c :: tcs' =>
      if decide (c = dead) then (tcs', Close c cs)
      else
        let '(rest, cs') := remove_dead dead tcs' cs in
        (c :: rest, cs')
  end.

(** The outer loop of the clean-up. *)
Fixpoint prune_loop (deadConns tcs : list conn_id) (cs : list Conn)
  : list conn_id * list Conn :=
  match deadConns with
  | [] => (tcs, cs)
  | dead :: deadConns' =>
      let '(tcs', cs') := remove_dead dead tcs cs in
      prune_loop deadConns' tcs' cs'
  end.

(** [broadcastToTail] sends a log entry to all tail consumers of the
    session behind the pointer [l]. *)
Definition broadcastToTail (accept : conn_id -> bool) (l : loc)
    (entry : LogEntry) (s : Server) : Server :=
  match heap s !! l with
  | None => s
  | Some session =>
      if Nat.eqb (length (tailConns session)) 0 then s
      else
        let msg := json_Marshal (LogEntry_json entry) in
        let '(deadConns, cs) :=
          write_loop accept msg (tailConns session) [] (conns s) in
        if Nat.ltb 0 (length deadConns) then
          let '(tcs, cs') := prune_loop deadConns (tailConns session) cs in
          {| sessions := sessions s;
             heap := <[l := set_tailConns tcs session]> (heap s);
             conns := cs';
             secret := secret s |}
        else
          {| sessions := sessions s; heap := heap s; conns := cs;
             secret := secret s |}
  end.

(** ** The producer connection *)

(** How a websocket handler leaves its connecting phase. *)
Inductive Outcome :=
| Rejected (resp : Response)
| UpgradeFailed
| Streaming (l : loc) (c : conn_id)
| Tailing (l : loc) (c : conn_id).

(** [handleStream] up to its read loop: the checks, the upgrade
    ([upgrade_ok] tells whether it succeeds), the eviction of the old
    session and the installation of the new one. *)
Definition handleStream (now : Time) (upgrade_ok : bool) (r : Request)
    (s : Server) : Outcome * Server :=
  if negb (checkSecret s r) then
    (Rejected (http_Error "Unauthorized" StatusUnauthorized), s)
  else
    let deviceHash := Get (query r) "device" in
    if String.eqb deviceHash "" then
      (Rejected (http_Error "Missing device parameter" StatusBadRequest), s)
    else
      let deviceName :=
        if String.eqb (Get (query r) "name") "" then "Unknown Device"
        else Get (query r) "name" in
      let ipv4 := Get (query r) "ipv4" in
      let ipv6 := Get (query r) "ipv6" in
      if negb upgrade_ok then (UpgradeFailed, s)
      else
        let '(c, cs) := Upgrade (conns s) in
        let cs' :=
          match lookup_session s deviceHash with
          | Some oldSession =>
              match conn oldSession with
              | Some old => Close old cs
              | None => cs
              end
          | None => cs
          end in
        let session :=
          {| DeviceHash := deviceHash; Name := deviceName;
             IPv4 := ipv4; IPv6 := ipv6; Connected := now;
             Logs := []; LogCount := 0;
             conn := Some c; tailConns := [] |} in
        let l := length (heap s) in
        (Streaming l c,
         {| sessions := <[deviceHash := l]> (sessions s);
            heap := heap s ++ [session];
            conns := cs';
            secret := secret s |}).

(** The entry a frame becomes: the frame is parsed as a [LogEntry]; a
    frame that is not one is taken as a raw message; a zero timestamp is
    set to now. *)
Definition parse_entry (now : Time) (message : string) : LogEntry :=
  let entry :=
    match json_Unmarshal message with
    | Ok entry => entry
    | Err _ => {| Timestamp := now; Message := message |}
    end in
  if IsZero (Timestamp entry)
  then {| Timestamp := now; Message := Message entry |}
  else entry.

(** One turn of the read loop of [handleStream] for the frame
    [message]: the entry is stored, then forwarded to the tail
    consumers. *)
Definition stream_frame (now : Time) (accept : conn_id -> bool) (l : loc)
    (message : string) (s : Server) : Server :=
  let entry := parse_entry now message in
  let s' :=
    {| sessions := sessions s;
       heap := alter (append_log entry) l (heap s);
       conns := conns s;
       secret := secret s |} in
  broadcastToTail accept l entry s'.

(** The end of [handleStream]: [ReadMessage] returned an error, the loop
    is left and the deferred function closes the connection. *)
Definition stream_closed (c : conn_id) (s : Server) : Server :=
  {| sessions := sessions s; heap := heap s; conns := Close c (conns s);
     secret := secret s |}.

(** ** The consumer connection *)

(** [handleTail] up to its read loop. *)
Definition handleTail (upgrade_ok : bool) (r : Request) (s : Server)
  : Outcome * Server :=
  if negb (checkSecret s r) then
    (Rejected (http_Error "Unauthorized" StatusUnauthorized), s)
  else
    let path := TrimPrefix (path r) "/tail/" in
    let deviceHash := TrimSuffix path "/" in
    if String.eqb deviceHash "" then
      (Rejected (http_Error "Missing device hash in path" StatusBadRequest), s)
    else
      match sessions s !! deviceHash with
      | None => (Rejected (http_Error "Device not found" StatusNotFound), s)
      | Some l =>
          if negb upgrade_ok then (UpgradeFailed, s)
          else
            let '(c, cs) := Upgrade (conns s) in
            (Tailing l c,
             {| sessions := sessions s;
                heap :=
                  alter (fun session =>
                           set_tailConns (tailConns session ++ [c]) session)
                    l (heap s);
                conns := cs;
                secret := secret s |})
      end.

(** The loop of the deferred function of [handleTail]: the first
    occurrence of the connection is cut out of [tailConns]. *)
Fixpoint remove_conn (c : conn_id) (tcs : list conn_id) : list conn_id :=
  match tcs with
  | [] => []
  | x :: tcs' => if decide (x = c) then tcs' else x :: remove_conn c tcs'
  end.

(** The end of [handleTail]: the consumer is detached from its session
    and closed. *)
Definition tail_closed (l : loc) (c : conn_id) (s : Server) : Server :=
  {| sessions := sessions s;
     heap :=
       alter (fun session =>
                set_tailConns (remove_conn c (tailConns session)) session)
         l (heap s);
     conns := Close c (conns s);
     secret := secret s |}.

(** ** Runs of the server *)

(** The steps of the goroutines of the server. *)
Inductive Event :=
| EvStream (now : Time) (upgrade_ok : bool) (r : Request)
| EvFrame (now : Time) (accept : conn_id -> bool) (l : loc) (message : string)
| EvStreamClosed (c : conn_id)
| EvTail (upgrade_ok : bool) (r : Request)
| EvTailClosed (l : loc) (c : conn_id).

Definition exec (ev : Event) (s : Server) : Server :=
  match ev with
  | EvStream now upgrade_ok r => (handleStream now upgrade_ok r s).2
  | EvFrame now accept l message => stream_frame now accept l message s
  | EvStreamClosed c => stream_closed c s
  | EvTail upgrade_ok r => (handleTail upgrade_ok r s).2
  | EvTailClosed l c => tail_closed l c s
  end.

Definition run (tr : list Event) (s : Server) : Server :=
  foldl (fun s ev => exec ev s) s tr.

End Handlers.

(** ** Notions the properties are stated with *)

(** The device a path names under a route: what is left of the path
    without the route and without a closing slash. *)
Definition device_of_path (route p : string) : string :=
  TrimSuffix (TrimPrefix p route) "/".

(** Durations, in nanoseconds. *)
Definition minutes (n : Z) : Duration := (n * 60000000000)%Z.
Definition seconds (n : Z) : Duration := (n * 1000000000)%Z.

(** [Close] was called on the connection. *)
Definition is_closed (c : conn_id) (cs : list Conn) : Prop :=
  closed <$> cs !! c = Some true.

(** A write is delivered when the peer accepts it and the connection is
    not closed. *)
Definition delivers (accept : conn_id -> bool) (cs : list Conn) (c : conn_id)
  : bool :=
  accept c && bool_decide (closed <$> cs !! c = Some false).

(** [Close] on each connection of a list. *)
Definition close_all (ds : list conn_id) (cs : list Conn) : list Conn :=
  foldl (fun cs d => Close d cs) cs ds.

(** The consumers attached to the session behind a pointer. *)
Definition tails_of (s : Server) (l : loc) : list conn_id :=
  default [] (tailConns <$> heap s !! l).

(** The server once the entry is stored, before it is forwarded. *)
Definition stored (entry : LogEntry) (l : loc) (s : Server) : Server :=
  {| sessions := sessions s;
     heap := alter (append_log entry) l (heap s);
     conns := conns s;
     secret := secret s |}.

(** What the eviction does to the connections. *)
Definition evict (old : option Session) (cs : list Conn) : list Conn :=
  match old with
  | Some oldSession =>
      match conn oldSession with
      | Some c => Close c cs
      | None => cs
      end
  | None => cs
  end.

(** The session [handleStream] installs. *)
Definition new_session (now : Time) (r : Request) (c : conn_id) : Session :=
  {| DeviceHash := Get (query r) "device";
     Name := if String.eqb (Get (query r) "name") "" then "Unknown Device"
             else Get (query r) "name";
     IPv4 := Get (query r) "ipv4"; IPv6 := Get (query r) "ipv6";
     Connected := now; Logs := []; LogCount := 0;
     conn := Some c; tailConns := [] |}.

(** A run of producer connects, each with a successful upgrade. *)
Fixpoint reconnects (reqs : list (Time * Request)) (s : Server)
  : list Outcome * Server :=
  match reqs with
  | [] => ([], s)
  | (now, r) :: reqs' =>
      let '(out, s1) := handleStream now true r s in
      let '(outs, s2) := reconnects reqs' s1 in
      (out :: outs, s2)
  end.

(** The outcome of a connect that created the session and the
    connection of the pair. *)
Definition streaming (lc : loc * conn_id) : Outcome := Streaming lc.1 lc.2.

(** In every state the server reaches, a consumer is attached at most
    once, to one session, and is a connection of the server. *)
Definition consumers_wf (s : Server) : Prop :=
  (forall l, NoDup (tails_of s l)) /\
  (forall l c, c ∈ tails_of s l -> c < length (conns s)) /\
  (forall l1 l2 c, c ∈ tails_of s l1 -> c ∈ tails_of s l2 -> l1 = l2).

(** A connection that is attached to no session. *)
Definition detached (c : conn_id) (s : Server) : Prop :=
  forall l, c ∉ tails_of s l.

(** The state [handleTail] leaves when the consumer is attached. *)
Definition attach (l : loc) (s : Server) : Server :=
  {| sessions := sessions s;
     heap :=
       alter (fun session =>
                set_tailConns (tailConns session ++ [length (conns s)]) session)
         l (heap s);
     conns := conns s ++ [{| closed := false; inbox := []; writes := 0 |}];
     secret := secret s |}.

(** The pointers of the registry refer to sessions of the heap. *)
Definition registry_wf (s : Server) : Prop :=
  forall d l, sessions s !! d = Some l -> l < length (heap s).

(** A frame of a producer as the read loop gets it: the time of
    arrival, which consumers take the write, and the payload. *)
Definition Frame : Type := Time * (conn_id -> bool) * string.

(** The frames as events of the producer of the session behind [l]. *)
Definition frames_on (l : loc) (fs : list Frame) : list Event :=
  (fun f : Frame => EvFrame f.1.1 f.1.2 l f.2) <$> fs.

(** The session and the connection an event creates for the device
    [d], when the event is a producer connect of [d] that succeeds. *)
Definition connect_of (d : string) (ev : Event) (s : Server)
  : option (loc * conn_id) :=
  match ev with
  | EvStream now upgrade_ok r =>
      match (handleStream now upgrade_ok r s).1 with
      | Streaming l c =>
          if String.eqb (Get (query r) "device") d then Some (l, c) else None
      | _ => None
      end
  | _ => None
  end.

(** The sessions and connections the producer connects of [d] create
    in a run, in their order. *)
Fixpoint connects_of {go : GoLib} (d : string) (tr : list Event) (s : Server)
  : list (loc * conn_id) :=
  match tr with
  | [] => []
  | ev :: tr' =>
      match connect_of d ev s with
      | Some lc => lc :: connects_of d tr' (exec ev s)
      | None => connects_of d tr' (exec ev s)
      end
  end.

(** The registry maps [d] to the session behind [l], whose producer
    handle is the connection [c]. *)
Definition registered (d : string) (s : Server) (l : loc) (c : conn_id)
  : Prop :=
  sessions s !! d = Some l /\
  conn <$> heap s !! l = Some (Some c) /\
  c < length (conns s).

(** The frames of the producer of the session behind [l] in a run, in
    their order. *)
Fixpoint frames_of (l : loc) (tr : list Event) : list Frame :=
  match tr with
  | [] => []
  | EvFrame now accept l' message :: tr' =>
      if Nat.eqb l' l then (now, accept, message) :: frames_of l tr'
      else frames_of l tr'
  | _ :: tr' => frames_of l tr'
  end.

(** The message a frame is forwarded as. *)
Definition forwarded {go : GoLib} (f : Frame) : string :=
  json_Marshal (LogEntry_json (parse_entry f.1.1 f.2)).

(** ** The steps of the goroutines

    For one frame the read loop of [handleStream] takes two locks in
    turn: it appends the entry under the lock of the logs, releases it,
    and then calls [broadcastToTail], which forwards the entry under
    the lock of the consumers.  Between the two, the handlers of other
    connections can run.  A [Step] is an event or one of these two
    halves of a frame: [StStore] is the append, [StForward] the call of
    [broadcastToTail] with the entry it is given.  The event [EvFrame]
    is the frame whose halves run with nothing in between. *)
Inductive Step :=
| StEvent (ev : Event)
| StStore (now : Time) (l : loc) (message : string)
| StForward (accept : conn_id -> bool) (l : loc) (entry : LogEntry).

Definition step {go : GoLib} (st : Step) (s : Server) : Server :=
  match st with
  | StEvent ev => exec ev s
  | StStore now l message => stored (parse_entry now message) l s
  | StForward accept l entry => broadcastToTail accept l entry s
  end.

Definition steps {go : GoLib} (sts : list Step) (s : Server) : Server :=
  foldl (fun s st => step st s) s sts.

(** What a step forwards to the consumers of the session behind [l],
    when it forwards to them: the consumers that take the write, and
    the message. *)
Definition forward_of {go : GoLib} (l : loc) (st : Step)
  : option ((conn_id -> bool) * string) :=
  match st with
  | StEvent (EvFrame now accept l' message) =>
      if Nat.eqb l' l then Some (accept, forwarded (now, accept, message))
      else None
  | StForward accept l' entry =>
      if Nat.eqb l' l then Some (accept, json_Marshal (LogEntry_json entry))
      else None
  | _ => None
  end.

(** The messages forwarded to the consumers of the session behind [l]
    in the steps, in their order. *)
Fixpoint forwards_of {go : GoLib} (l : loc) (sts : list Step) : list string :=
  match sts with
  | [] => []
  | st :: sts' =>
      match forward_of l st with
      | Some (_, msg) => msg :: forwards_of l sts'
      | None => forwards_of l sts'
      end
  end.



(** ** A fragment of the Go library, to run the handlers

    The properties below hold for every [GoLib].  To evaluate the
    handlers on concrete requests, [fragment] implements a part of each
    library function: durations made of a sign and segments of an integer
    and a unit; regular expressions without metacharacters, which match
    as substrings (a pattern with a metacharacter is outside the fragment
    and is reported as an error, as Go does for the unbalanced patterns
    used below); frames of the form of an object with the single key
    [msg]; an encoder of [json] that does not escape; instants printed
    as their count of nanoseconds. *)
Module Fragment.

Definition digit_of (a : Ascii.ascii) : option Z :=
  let n := Ascii.nat_of_ascii a in
  if Nat.leb 48 n && Nat.leb n 57 then Some (Z.of_nat (n - 48)) else None.

Definition unit_ns (u : string) : option Z :=
  if String.eqb u "ns" then Some 1%Z
  else if String.eqb u "us" then Some 1000%Z
  else if String.eqb u "ms" then Some 1000000%Z
  else if String.eqb u "s" then Some 1000000000%Z
  else if String.eqb u "m" then Some 60000000000%Z
  else if String.eqb u "h" then Some 3600000000000%Z
  else None.

Fixpoint parse_segments (s : string) (total : Z) (num : option Z)
    (unit : string) : result Z :=
  match s with
  | EmptyString =>
      match num, unit_ns unit with
      | Some n, Some u => Ok (total + n * u)%Z
      | Some _, None => Err "time: missing or unknown unit in duration"
      | None, _ => Err "time: invalid duration"
      end
  | String a s' =>
      match digit_of a with
      | Some d =>
          if String.eqb unit "" then
            parse_segments s' total (Some (10 * default 0%Z num + d)%Z) ""
          else
            match num, unit_ns unit with
            | Some n, Some u => parse_segments s' (total + n * u)%Z (Some d) ""
            | _, _ => Err "time: unknown unit in duration"
            end
      | None =>
          match num with
          | None => Err "time: invalid duration"
          | Some _ => parse_segments s' total num (unit +:+ String a EmptyString)
          end
      end
  end.

Definition ParseDuration (s : string) : result Duration :=
  let '(neg, body) :=
    match s with
    | String a s' =>
        if Ascii.eqb a "-"%char then (true, s')
        else if Ascii.eqb a "+"%char then (false, s')
        else (false, s)
    | EmptyString => (false, s)
    end in
  if String.eqb body "0" then Ok 0%Z
  else
    match parse_segments body 0 None "" with
    | Ok d =>
        if (2 ^ 63 <? d)%Z then Err "time: invalid duration"
        else if neg then Ok (neg_Duration (wrap_int64 d))
        else if (MaxDuration <? d)%Z then Err "time: invalid duration"
        else Ok d
    | Err e => Err e
    end.

Definition is_meta (a : Ascii.ascii) : bool :=
  existsb (Ascii.eqb a) (String.list_ascii_of_string "\.+*?()|[]{}^$").

Fixpoint has_meta (p : string) : bool :=
  match p with
  | EmptyString => false
  | String a p' => is_meta a || has_meta p'
  end.

Fixpoint contains (needle hay : string) : bool :=
  String.prefix needle hay ||
  match hay with
  | EmptyString => false
  | String _ hay' => contains needle hay'
  end.

Definition Compile (p : string) : result (string -> bool) :=
  if has_meta p then Err "error parsing regexp" else Ok (contains p).

Definition dq : string := String (Ascii.ascii_of_nat 34) EmptyString.

Fixpoint Marshal (j : json) : string :=
  match j with
  | JString s => dq +:+ s +:+ dq
  | JNumber n => pretty n
  | JArray l =>
      "[" +:+
      (fix elems (l : list json) : string :=
         match l with
         | [] => ""
         | [x] => Marshal x
         | x :: l' => Marshal x +:+ "," +:+ elems l'
         end) l +:+ "]"
  | JObject fields =>
      "{" +:+
      (fix members (fs : list (string * json)) : string :=
         match fs with
         | [] => ""
         | [(k, x)] => dq +:+ k +:+ dq +:+ ":" +:+ Marshal x
         | (k, x) :: fs' =>
             dq +:+ k +:+ dq +:+ ":" +:+ Marshal x +:+ "," +:+ members fs'
         end) fields +:+ "}"
  end.

(** The frame that carries the message [text] and no timestamp. *)
Definition msg_frame (text : string) : string :=
  "{" +:+ dq +:+ "msg" +:+ dq +:+ ":" +:+ dq +:+ text +:+ dq +:+ "}".

Definition Unmarshal (data : string) : result LogEntry :=
  let head := "{" +:+ dq +:+ "msg" +:+ dq +:+ ":" +:+ dq in
  let tail := dq +:+ "}" in
  if String.prefix head data && HasSuffix data tail then
    let text := TrimSuffix (TrimPrefix data head) tail in
    if contains dq text || contains "\" text
    then Err "invalid character"
    else Ok {| Timestamp := 0%Z; Message := text |}
  else Err "invalid character".

Definition Format (layout : string) (t : Time) : string := pretty t.

Definition fragment : GoLib :=
  {| json_Unmarshal := Unmarshal;
     json_Marshal := Marshal;
     time_Format := Format;
     time_ParseDuration := ParseDuration;
     regexp_Compile := Compile;
     ParseDuration_empty := fun d => ltac:(discriminate) |}.

End Fragment.

(** ** Servers and requests to run the handlers on *)

(** The connect request of the device [abc]. *)
Definition stream_abc : Request :=
  {| path := "/stream";
     query := [("device", "abc"); ("name", "phone"); ("secret", "s3cret")] |}.

(** A server on which the device [abc] has connected and sent the raw
    frame [hello raw] at second 1000. *)
Definition one_entry_server : Server :=
  run (go := Fragment.fragment)
    [EvStream (seconds 900) true stream_abc;
     EvFrame (seconds 1000) (fun _ => true) 0 "hello raw"]
    (NewServer "s3cret").

(** A request for the logs of [abc] with the parameters [params]. *)
Definition logs_abc (params : list (string * string)) : Request :=
  {| path := "/logs/abc"; query := ("secret", "s3cret") :: params |}.

(** A server on which the device [abc] has connected. *)
Definition connected_server : Server :=
  (handleStream (seconds 900) true stream_abc (NewServer "s3cret")).2.

(** The request of a consumer for the live stream of [abc]. *)
Definition tail_abc : Request :=
  {| path := "/tail/abc"; query := [("secret", "s3cret")] |}.

(** The server once a consumer is attached to the session of [abc]. *)
Definition tailed_server : Server :=
  (handleTail true tail_abc connected_server).2.

(** The events that lead to a server with the producer of [abc]
    (connection 0) and two consumers of its session (connections 1 and
    2). *)
Definition two_tails : list Event :=
  [EvStream (seconds 900) true stream_abc;
   EvTail true tail_abc;
   EvTail true tail_abc].

(** ** The device list and the start of the server *)

Section Devices.
Context {go : GoLib}.

(** The JSON object [handleDevices] builds for a session.  The keys of
    a Go map are encoded in sorted order. *)
Definition device_json (session : Session) : json :=
  JObject [("connected", JString (time_Format RFC3339 (Connected session)));
           ("device", JString (DeviceHash session));
           ("ipv4", JString (IPv4 session));
           ("ipv6", JString (IPv6 session));
           ("log_count", JNumber (Z.of_nat (length (Logs session))));
           ("name", JString (Name session))].

(** The sessions [handleDevices] lists.  [order] is the order in which
    the [range] over the map [s.sessions] visits its entries: Go leaves
    it unspecified, it is a permutation of the entries of the map. *)
Definition listed_sessions (order : list (string * loc)) (s : Server)
  : list Session :=
  omap (fun kv : string * loc => heap s !! kv.2) order.

(** [handleDevices] returns the list of connected devices. *)
Definition handleDevices (order : list (string * loc)) (s : Server)
    (r : Request) : Response :=
  if negb (checkSecret s r) then http_Error "Unauthorized" StatusUnauthorized
  else
    let devices := device_json <$> listed_sessions order s in
    {| status := StatusOK;
       content_type := "application/json";
       body := json_Marshal (JArray devices) +:+ nl |}.

End Devices.

(** The flags of the command line that [main] validates. *)
Record Flags := mkFlags {
  bindV4 : string;
  bindV6 : string;
  useTLS : bool;
  certFile : string;
  keyFile : string;
  flag_secret : string
}.

(** The start of [main]: the required flags are validated
    ([log.Fatal] ends the process with the message), then the server is
    created. *)
Definition main_server (f : Flags) : result Server :=
  if String.eqb (flag_secret f) "" then Err "--secret is required"
  else if String.eqb (bindV4 f) "" && String.eqb (bindV6 f) "" then
    Err "At least one of --bind-v4 or --bind-v6 is required"
  else Ok (NewServer (flag_secret f)).

(** ** Notions the further properties are stated with *)

(** Two states of a session with the same identity: device, name,
    addresses, time of connection and producer handle. *)
Definition same_meta (a b : Session) : Prop :=
  DeviceHash a = DeviceHash b /\ Name a = Name b /\
  IPv4 a = IPv4 b /\ IPv6 a = IPv6 b /\
  Connected a = Connected b /\ conn a = conn b.

(** The field [LogCount] of every session is the length of its logs. *)
Definition logcount_ok (s : Server) : Prop :=
  forall l session, heap s !! l = Some session ->
                    LogCount session = length (Logs session).

(** The registry maps a device to a session of that device. *)
Definition registry_named (s : Server) : Prop :=
  forall d l, sessions s !! d = Some l ->
              exists session, heap s !! l = Some session /\
                              DeviceHash session = d.

(** Every session has a producer handle, a connection of the server;
    a session that the registry does not return for its device has its
    producer connection closed. *)
Definition producers_wf (s : Server) : Prop :=
  forall l session, heap s !! l = Some session ->
    exists c, conn session = Some c /\ c < length (conns s) /\
              (sessions s !! DeviceHash session = Some l \/
               is_closed c (conns s)).

(** The entry a frame is stored as. *)
Definition entry_of {go : GoLib} (f : Frame) : LogEntry :=
  parse_entry f.1.1 f.2.

(** The cutoff of the time window of the duration [d] at the instant
    [now], as [handleLogs] computes it: [time.Now().Add(-duration)]. *)
Definition cutoff_of (now : Time) (d : Duration) : Time :=
  Add now (neg_Duration d).

(** Whether an entry passes the time window of the duration [d] at the
    instant [now], that is, is after its cutoff, and matches the
    compiled pattern [re]; a filter that is not given passes every
    entry. *)
Definition kept_by (now : Time) (d : option Duration)
    (re : option (string -> bool)) (entry : LogEntry) : bool :=
  match d with
  | Some d => After (Timestamp entry) (cutoff_of now d)
  | None => true
  end &&
  match re with
  | Some re => re (Message entry)
  | None => true
  end.

(** The answer of [handleLogs] that carries the entries [logs], in the
    format the request asks for. *)
Definition logs_response {go : GoLib} (r : Request) (logs : list LogEntry)
  : Response :=
  if String.eqb (Get (query r) "format") "text" then
    {| status := StatusOK; content_type := "text/plain";
       body := render_text logs |}
  else
    {| status := StatusOK; content_type := "application/json";
       body := render_json logs |}.

(** No producer handle is a consumer of a session. *)
Definition roles_apart (s : Server) : Prop :=
  forall l l' session c,
    heap s !! l = Some session -> conn session = Some c ->
    c ∉ tails_of s l'.

(** No frame of the run arrives at the zero instant. *)
Definition clock_ok (tr : list Event) : Prop :=
  Forall (fun ev => match ev with
                    | EvFrame now _ _ _ => now <> 0%Z
                    | _ => True
                    end) tr.

(** The events that lead to [one_entry_server], and its session. *)
Definition one_entry_run : list Event :=
  [EvStream (seconds 900) true stream_abc;
   EvFrame (seconds 1000) (fun _ => true) 0 "hello raw"].

Definition one_entry_session : Session :=
  {| DeviceHash := "abc"; Name := "phone"; IPv4 := ""; IPv6 := "";
     Connected := seconds 900;
     Logs := [{| Timestamp := seconds 1000; Message := "hello raw" |}];
     LogCount := 1; conn := Some 0; tailConns := [] |}.

(** A request without the secret. *)
Definition no_secret (p : string) : Request :=
  {| path := p; query := [("device", "abc")] |}.

(** Flags that [main] accepts. *)
Definition good_flags : Flags :=
  {| bindV4 := "0.0.0.0:8765"; bindV6 := ""; useTLS := false;
     certFile := ""; keyFile := ""; flag_secret := "s3cret" |}.

(** The events that lead to a server on which [abc] has sent three
    raw frames, and the session of [abc] before the frames. *)
Definition three_entries_run : list Event :=
  [EvStream (seconds 900) true stream_abc;
   EvFrame (seconds 1001) (fun _ => true) 0 "Error A";
   EvFrame (seconds 1002) (fun _ => true) 0 "Info B";
   EvFrame (seconds 1003) (fun _ => true) 0 "Error C"].

Definition connected_session : Session :=
  {| DeviceHash := "abc"; Name := "phone"; IPv4 := ""; IPv6 := "";
     Connected := seconds 900; Logs := []; LogCount := 0;
     conn := Some 0; tailConns := [] |}.

(** The connect request of the device [xyz], and the events that lead
    to a server with the producers of [abc] (session 0, connection 0)
    and of [xyz] (session 1, connection 1) and a consumer of [xyz]
    (connection 2). *)
Definition stream_xyz : Request :=
  {| path := "/stream"; query := [("device", "xyz"); ("secret", "s3cret")] |}.

Definition two_devices_run : list Event :=
  [EvStream (seconds 900) true stream_abc;
   EvStream (seconds 901) true stream_xyz;
   EvTail true {| path := "/tail/xyz"; query := [("secret", "s3cret")] |}].

(** * Properties *)

(** ** The gateway of the producer endpoint *)

Lemma Get_absent q key :
  (forall kv, kv ∈ q -> kv.1 <> key) -> Get q key = "".
Proof.
  induction q as [|[k v] q IH]; intros Hq; simpl; [done|].
  destruct (String.eqb_spec k key) as [->|_].
  - exfalso. apply (Hq (key, v)); [left|done].
  - apply IH. intros kv Hkv. apply Hq. by right.
Qed.

Lemma checkSecret_true s r :
  checkSecret s r = true <-> Get (query r) "secret" = secret s.
Proof. unfold checkSecret. apply String.eqb_eq. Qed.

Lemma checkSecret_false s r :
  checkSecret s r = false <-> Get (query r) "secret" <> secret s.
Proof. unfold checkSecret. apply String.eqb_neq. Qed.

(** C8: a producer connect whose secret is missing or mismatched is
    answered unauthorized, one with the secret and without a device is
    answered bad-request, and in both cases the server is left exactly as
    it was: no session is created, replaced or mutated.  The secret of a
    running server is not empty ([main] refuses to start without one), so
    a request without the parameter is a mismatch. *)
Theorem handleStream_rejects_before_any_state now upgrade_ok r s :
  (Get (query r) "secret" <> secret s ->
   handleStream now upgrade_ok r s =
     (Rejected (http_Error "Unauthorized" StatusUnauthorized), s)) /\
  (secret s <> "" -> (forall kv, kv ∈ query r -> kv.1 <> "secret") ->
   handleStream now upgrade_ok r s =
     (Rejected (http_Error "Unauthorized" StatusUnauthorized), s)) /\
  (Get (query r) "secret" = secret s -> Get (query r) "device" = "" ->
   handleStream now upgrade_ok r s =
     (Rejected (http_Error "Missing device parameter" StatusBadRequest), s)).
Proof.
  assert (Hbad : Get (query r) "secret" <> secret s ->
    handleStream now upgrade_ok r s =
      (Rejected (http_Error "Unauthorized" StatusUnauthorized), s)).
  { intros Hne. apply checkSecret_false in Hne.
    unfold handleStream. by rewrite Hne. }
  split; [exact Hbad|]. split.
  - intros Hs Hq. apply Hbad. rewrite (Get_absent _ _ Hq). congruence.
  - intros Hok Hdev. apply checkSecret_true in Hok.
    unfold handleStream. rewrite Hok, Hdev. reflexivity.
Qed.

Lemma handleStream_rejects_before_any_state_witness :
  let s := NewServer "s3cret" in
  handleStream 7 true
    {| path := "/stream"; query := [("device", "abc"); ("secret", "guess")] |} s
  = (Rejected (http_Error "Unauthorized" StatusUnauthorized), s) /\
  handleStream 7 true {| path := "/stream"; query := [("device", "abc")] |} s
  = (Rejected (http_Error "Unauthorized" StatusUnauthorized), s) /\
  handleStream 7 true {| path := "/stream"; query := [("secret", "s3cret")] |} s
  = (Rejected (http_Error "Missing device parameter" StatusBadRequest), s).
Proof.
  intros s. split; [|split].
  - destruct (handleStream_rejects_before_any_state 7 true
                {| path := "/stream";
                   query := [("device", "abc"); ("secret", "guess")] |} s)
      as (Hmismatch & _ & _).
    apply Hmismatch. vm_compute. discriminate.
  - destruct (handleStream_rejects_before_any_state 7 true
                {| path := "/stream"; query := [("device", "abc")] |} s)
      as (_ & Hmissing & _).
    apply Hmissing.
    + vm_compute. discriminate.
    + intros kv Hkv. apply list_elem_of_singleton in Hkv. subst kv.
      vm_compute. discriminate.
  - destruct (handleStream_rejects_before_any_state 7 true
                {| path := "/stream"; query := [("secret", "s3cret")] |} s)
      as (_ & _ & Hdevice).
    apply Hdevice; reflexivity.
Defined.

Section Queries.
Context {go : GoLib}.

(** ** The health check *)

Lemma handleHealth_with_secret now s r :
  Get (query r) "secret" = secret s ->
  handleHealth now s r =
    {| status := StatusOK;
       content_type := "application/json";
       body :=
         json_Marshal
           (JObject [("devices", JNumber (Z.of_nat (size (sessions s))));
                     ("status", JString "ok");
                     ("ts", JString (time_Format RFC3339 now))]) +:+ nl |}.
Proof.
  intros Hok. apply checkSecret_true in Hok.
  unfold handleHealth. by rewrite Hok.
Qed.

(** C2: the health check is meant to answer without authentication, but
    [handleHealth] checks the secret like the other handlers: a request
    without the secret parameter is answered unauthorized, and no status
    and no session count is returned. *)
Theorem handleHealth_without_secret_unauthorized now :
  handleHealth now (NewServer "s3cret") {| path := "/health"; query := [] |}
  = http_Error "Unauthorized" StatusUnauthorized.
Proof. reflexivity. Qed.

(** ** The filters of [handleLogs] *)

Lemma sinceFilter_parsed now sinceStr d logs :
  time_ParseDuration sinceStr = Ok d ->
  sinceFilter now sinceStr logs =
    Ok (filter (fun entry => After (Timestamp entry) (cutoff_of now d)) logs).
Proof.
  intros Hd. unfold sinceFilter.
  destruct (String.eqb_spec sinceStr "") as [->|_].
  - by destruct (ParseDuration_empty d).
  - by rewrite Hd.
Qed.

Lemma After_spec t u : After t u <-> (u < t)%Z.
Proof.
  unfold After. destruct (Z.ltb_spec u t); simpl; split; intros; try done; lia.
Qed.

(** The negation of a duration is exact but for the least one. *)
Lemma neg_Duration_exact d :
  (MinDuration < d <= MaxDuration)%Z -> neg_Duration d = (- d)%Z.
Proof.
  unfold MinDuration, MaxDuration, neg_Duration, wrap_int64. intros Hd.
  rewrite Z.mod_small by lia. lia.
Qed.

Lemma neg_Duration_MinDuration : neg_Duration MinDuration = MinDuration.
Proof. reflexivity. Qed.

Lemma cutoff_of_exact now d :
  (MinDuration < d <= MaxDuration)%Z -> cutoff_of now d = (now - d)%Z.
Proof.
  intros Hd. unfold cutoff_of, Add. rewrite neg_Duration_exact by done. lia.
Qed.

Lemma cutoff_of_MinDuration now :
  cutoff_of now MinDuration = (now + MinDuration)%Z.
Proof. reflexivity. Qed.

(** For a parsed duration [d] other than the least one, the time filter
    keeps exactly the entries whose timestamp is strictly after
    [now - d], in their order; of entries at [t - 10m], [t - 2m] and
    [t - 10s], a duration of five minutes keeps the last two. *)
Lemma sinceFilter_keeps_strictly_after now sinceStr d logs :
  time_ParseDuration sinceStr = Ok d ->
  (MinDuration < d <= MaxDuration)%Z ->
  exists kept,
    sinceFilter now sinceStr logs = Ok kept /\
    kept = filter (fun entry => (now - d < Timestamp entry)%Z) logs /\
    (forall entry, entry ∈ kept <->
                   entry ∈ logs /\ (now - d < Timestamp entry)%Z) /\
    sublist kept logs /\
    (d = minutes 5 ->
     forall t m1 m2 m3,
       sinceFilter t sinceStr
         [ {| Timestamp := t - minutes 10; Message := m1 |};
           {| Timestamp := t - minutes 2; Message := m2 |};
           {| Timestamp := t - seconds 10; Message := m3 |} ]
       = Ok [ {| Timestamp := t - minutes 2; Message := m2 |};
              {| Timestamp := t - seconds 10; Message := m3 |} ]).
Proof.
  intros Hd Hrange.
  assert (Heq : forall t (l : list LogEntry),
    filter (fun entry => After (Timestamp entry) (cutoff_of t d)) l =
    filter (fun entry => (t - d < Timestamp entry)%Z) l).
  { intros t l. apply list_filter_iff. intros entry.
    rewrite After_spec, cutoff_of_exact by done. lia. }
  exists (filter (fun entry => (now - d < Timestamp entry)%Z) logs).
  split; [by rewrite (sinceFilter_parsed _ _ d), Heq|].
  split; [done|]. split; [|split].
  - intros entry. rewrite list_elem_of_filter. tauto.
  - apply sublist_filter.
  - intros Hfive t m1 m2 m3.
    rewrite (sinceFilter_parsed _ _ d), Heq by done. subst d.
    unfold minutes, seconds.
    rewrite filter_cons_False by (simpl; lia).
    rewrite filter_cons_True by (simpl; lia).
    rewrite filter_cons_True by (simpl; lia).
    reflexivity.
Qed.

(** C6: the time filter at the least duration.  [time.ParseDuration]
    returns the least duration, [-2^63] nanoseconds, for
    [-9223372036854775808ns]; its negation in [handleLogs] wraps to
    itself, so that the cutoff is [now - 2^63] and not [now - d], which
    is [now + 2^63]: the filter keeps every entry after [now - 2^63],
    among them an entry of the instant [now], which is not strictly
    after [now - d]. *)
Theorem sinceFilter_least_duration_wraps now sinceStr logs :
  time_ParseDuration sinceStr = Ok MinDuration ->
  sinceFilter now sinceStr logs =
    Ok (filter (fun entry => (now - 2 ^ 63 < Timestamp entry)%Z) logs) /\
  (forall m,
     sinceFilter now sinceStr [ {| Timestamp := now; Message := m |} ]
     = Ok [ {| Timestamp := now; Message := m |} ] /\
     ~ (now - MinDuration < now)%Z).
Proof.
  intros Hd.
  assert (Heq : forall l : list LogEntry,
    filter (fun entry => After (Timestamp entry) (cutoff_of now MinDuration)) l =
    filter (fun entry => (now - 2 ^ 63 < Timestamp entry)%Z) l).
  { intros l. apply list_filter_iff. intros entry.
    rewrite After_spec, cutoff_of_MinDuration. unfold MinDuration. lia. }
  split; [by rewrite (sinceFilter_parsed _ _ MinDuration), Heq|].
  intros m. split; [|unfold MinDuration; lia].
  rewrite (sinceFilter_parsed _ _ MinDuration), Heq by done.
  rewrite filter_cons_True by (simpl; lia). done.
Qed.

End Queries.

Lemma sinceFilter_five_minutes :
  let go := Fragment.fragment in
  let t := 1769439600000000000%Z in
  sinceFilter t "5m"
    [ {| Timestamp := t - minutes 10; Message := "a" |};
      {| Timestamp := t - minutes 2; Message := "b" |};
      {| Timestamp := t - seconds 10; Message := "c" |} ]
  = Ok [ {| Timestamp := t - minutes 2; Message := "b" |};
         {| Timestamp := t - seconds 10; Message := "c" |} ].
Proof.
  intros go t.
  destruct (sinceFilter_keeps_strictly_after (go := go) 0 "5m" (minutes 5) [])
    as (kept & _ & _ & _ & _ & Hex); [reflexivity|vm_compute; done|].
  apply Hex. reflexivity.
Qed.

Lemma sinceFilter_least_duration_wraps_witness :
  let go := Fragment.fragment in
  let t := 1769439600000000000%Z in
  time_ParseDuration "-9223372036854775808ns" = Ok MinDuration /\
  sinceFilter t "-9223372036854775808ns"
    [ {| Timestamp := t; Message := "now" |} ]
  = Ok [ {| Timestamp := t; Message := "now" |} ].
Proof.
  intros go t.
  assert (Hd : time_ParseDuration "-9223372036854775808ns" = Ok MinDuration)
    by (vm_compute; reflexivity).
  split; [exact Hd|].
  destruct (sinceFilter_least_duration_wraps (go := go) t
              "-9223372036854775808ns" [] Hd) as [_ Hkept].
  apply (Hkept "now").
Defined.

(** ** The answers of [handleLogs] *)

Section Logs.
Context {go : GoLib}.

(** The answer of [handleLogs] to a request that carries the secret and
    names a known device. *)
Lemma handleLogs_found now s r session :
  Get (query r) "secret" = secret s ->
  device_of_path "/logs/" (path r) <> "" ->
  lookup_session s (device_of_path "/logs/" (path r)) = Some session ->
  handleLogs now s r =
    match sinceFilter now (Get (query r) "since") (Logs session) with
    | Err e => http_Error ("Invalid since parameter: " +:+ e) StatusBadRequest
    | Ok logs =>
        match regexFilter (Get (query r) "regex") logs with
        | Err e => http_Error ("Invalid regex: " +:+ e) StatusBadRequest
        | Ok logs =>
            if String.eqb (Get (query r) "format") "text" then
              {| status := StatusOK; content_type := "text/plain";
                 body := render_text logs |}
            else
              {| status := StatusOK; content_type := "application/json";
                 body := render_json logs |}
        end
    end.
Proof.
  intros Hok Hdev Hfound. apply checkSecret_true in Hok.
  apply String.eqb_neq in Hdev. unfold device_of_path in *.
  unfold handleLogs. rewrite Hok. simpl. rewrite Hdev, Hfound. reflexivity.
Qed.

Lemma sinceFilter_unparsable now sinceStr e logs :
  sinceStr <> "" -> time_ParseDuration sinceStr = Err e ->
  sinceFilter now sinceStr logs = Err e.
Proof.
  intros Hne He. apply String.eqb_neq in Hne.
  unfold sinceFilter. by rewrite Hne, He.
Qed.

Lemma sinceFilter_is_Ok now sinceStr logs :
  sinceStr = "" \/ (exists d, time_ParseDuration sinceStr = Ok d) ->
  exists kept, sinceFilter now sinceStr logs = Ok kept.
Proof.
  intros [->|[d Hd]].
  - by exists logs.
  - rewrite (sinceFilter_parsed _ _ d) by done. eauto.
Qed.

Lemma regexFilter_invalid regexPattern e logs :
  regexPattern <> "" -> regexp_Compile regexPattern = Err e ->
  regexFilter regexPattern logs = Err e.
Proof.
  intros Hne He. apply String.eqb_neq in Hne.
  unfold regexFilter. by rewrite Hne, He.
Qed.

(** C10: a request for the logs of a known device, with the secret,
    whose [since] does not parse or whose [regex] does not compile is
    answered 400, and the answer is the error message alone: no line and
    no entry of the logs is written. *)
Theorem handleLogs_bad_filter_is_bad_request now s r session :
  Get (query r) "secret" = secret s ->
  device_of_path "/logs/" (path r) <> "" ->
  lookup_session s (device_of_path "/logs/" (path r)) = Some session ->
  (forall e,
     Get (query r) "since" <> "" ->
     time_ParseDuration (Get (query r) "since") = Err e ->
     handleLogs now s r =
       http_Error ("Invalid since parameter: " +:+ e) StatusBadRequest) /\
  (forall e,
     Get (query r) "since" = "" \/
       (exists d, time_ParseDuration (Get (query r) "since") = Ok d) ->
     Get (query r) "regex" <> "" ->
     regexp_Compile (Get (query r) "regex") = Err e ->
     handleLogs now s r = http_Error ("Invalid regex: " +:+ e) StatusBadRequest).
Proof.
  intros Hok Hdev Hfound.
  rewrite (handleLogs_found _ _ _ session) by done. split.
  - intros e Hne He. by rewrite (sinceFilter_unparsable _ _ e).
  - intros e Hsince Hne He.
    destruct (sinceFilter_is_Ok now _ (Logs session) Hsince) as [kept ->].
    by rewrite (regexFilter_invalid _ e).
Qed.

Lemma filter_agree_on {A} (P1 P2 : A -> Prop)
    `{!forall x, Decision (P1 x), !forall x, Decision (P2 x)} (l : list A) :
  (forall x, x ∈ l -> P1 x <-> P2 x) -> filter P1 l = filter P2 l.
Proof.
  induction l as [|a l IH]; intros Hl; [done|].
  assert (Ha : P1 a <-> P2 a) by (apply Hl; left).
  assert (Hrest : filter P1 l = filter P2 l).
  { apply IH. intros x Hx. apply Hl. by right. }
  destruct (decide (P1 a)).
  - rewrite !filter_cons_True by tauto. by rewrite Hrest.
  - rewrite !filter_cons_False by tauto. done.
Qed.



End Logs.

Lemma handleLogs_bad_filter_is_bad_request_witness :
  let go := Fragment.fragment in
  handleLogs (seconds 1200) one_entry_server
    (logs_abc [("since", "5x"); ("regex", "Error")])
  = http_Error "Invalid since parameter: time: missing or unknown unit in duration"
      StatusBadRequest /\
  handleLogs (seconds 1200) one_entry_server
    (logs_abc [("since", "5m"); ("regex", "(")])
  = http_Error "Invalid regex: error parsing regexp" StatusBadRequest.
Proof.
  intros go.
  assert (Hfound : lookup_session one_entry_server "abc" =
    Some {| DeviceHash := "abc"; Name := "phone"; IPv4 := ""; IPv6 := "";
            Connected := seconds 900;
            Logs := [{| Timestamp := seconds 1000; Message := "hello raw" |}];
            LogCount := 1; conn := Some 0; tailConns := [] |})
    by (vm_compute; reflexivity).
  split.
  - destruct (handleLogs_bad_filter_is_bad_request (go := go) (seconds 1200)
                one_entry_server
                (logs_abc [("since", "5x"); ("regex", "Error")]) _
                eq_refl ltac:(vm_compute; discriminate) Hfound)
      as [Hsince _].
    apply Hsince; [vm_compute; discriminate | reflexivity].
  - destruct (handleLogs_bad_filter_is_bad_request (go := go) (seconds 1200)
                one_entry_server
                (logs_abc [("since", "5m"); ("regex", "(")]) _
                eq_refl ltac:(vm_compute; discriminate) Hfound)
      as [_ Hregex].
    apply Hregex;
      [right; exists (minutes 5); reflexivity
      | vm_compute; discriminate | reflexivity].
Defined.

(** ** Connections *)

Lemma length_Close c cs : length (Close c cs) = length cs.
Proof. apply length_alter. Qed.

Lemma Close_lookup_eq c cs :
  Close c cs !! c =
    (fun k => {| closed := true; inbox := inbox k; writes := writes k |})
      <$> cs !! c.
Proof. apply list_lookup_alter_eq. Qed.

Lemma Close_lookup_ne c c' cs : c <> c' -> Close c cs !! c' = cs !! c'.
Proof. apply list_lookup_alter_ne. Qed.

Lemma Close_is_closed c cs : c < length cs -> is_closed c (Close c cs).
Proof.
  intros Hc. apply lookup_lt_is_Some_2 in Hc as [k Hk].
  unfold is_closed. by rewrite Close_lookup_eq, Hk.
Qed.

Lemma Close_keeps_closed c c' cs : is_closed c' cs -> is_closed c' (Close c cs).
Proof.
  unfold is_closed. intros Hc'. destruct (decide (c = c')) as [->|Hne].
  - rewrite Close_lookup_eq. destruct (cs !! c'); [done|discriminate].
  - by rewrite Close_lookup_ne.
Qed.

Lemma Close_writes c c' cs : writes <$> Close c cs !! c' = writes <$> cs !! c'.
Proof.
  destruct (decide (c = c')) as [->|Hne].
  - rewrite Close_lookup_eq. by destruct (cs !! c').
  - by rewrite Close_lookup_ne.
Qed.

Lemma Close_inbox c c' cs : inbox <$> Close c cs !! c' = inbox <$> cs !! c'.
Proof.
  destruct (decide (c = c')) as [->|Hne].
  - rewrite Close_lookup_eq. by destruct (cs !! c').
  - by rewrite Close_lookup_ne.
Qed.

Lemma WriteMessage_length a c msg cs :
  length (WriteMessage a c msg cs).2 = length cs.
Proof.
  unfold WriteMessage. destruct (cs !! c); simpl; [|done].
  apply length_insert.
Qed.

Lemma WriteMessage_closed a c msg cs c' :
  closed <$> (WriteMessage a c msg cs).2 !! c' = closed <$> cs !! c'.
Proof.
  unfold WriteMessage. destruct (cs !! c) as [k|] eqn:Hk; simpl; [|done].
  destruct (decide (c = c')) as [->|Hne].
  - rewrite list_lookup_insert_eq by (by eapply lookup_lt_Some).
    by rewrite Hk.
  - by rewrite list_lookup_insert_ne.
Qed.

Lemma WriteMessage_lookup_ne a c msg cs c' :
  c <> c' -> (WriteMessage a c msg cs).2 !! c' = cs !! c'.
Proof.
  intros Hne. unfold WriteMessage. destruct (cs !! c); simpl; [|done].
  by rewrite list_lookup_insert_ne.
Qed.

Lemma WriteMessage_ok accept c msg cs :
  (WriteMessage (accept c) c msg cs).1 = delivers accept cs c.
Proof.
  unfold WriteMessage, delivers. destruct (cs !! c) as [k|]; simpl.
  - destruct (accept c), (closed k); reflexivity.
  - by rewrite andb_false_r.
Qed.

Lemma WriteMessage_lookup_eq accept c msg cs k :
  cs !! c = Some k ->
  (WriteMessage (accept c) c msg cs).2 !! c =
    Some {| closed := closed k;
            inbox := if delivers accept cs c then inbox k ++ [msg] else inbox k;
            writes := S (writes k) |}.
Proof.
  intros Hk. pose proof (WriteMessage_ok accept c msg cs) as Hok.
  unfold WriteMessage in *. rewrite Hk in *. simpl in *.
  rewrite list_lookup_insert_eq by (by eapply lookup_lt_Some).
  by rewrite Hok.
Qed.

Lemma delivers_ext accept cs cs' c :
  closed <$> cs' !! c = closed <$> cs !! c ->
  delivers accept cs' c = delivers accept cs c.
Proof. intros Heq. unfold delivers. by rewrite Heq. Qed.

(** ** The two loops of [broadcastToTail] *)

(** What the write loop leaves: the consumers whose write failed, in
    their order, are added to [deadConns]; no connection is closed or
    opened; a consumer of the list, written once, has its frame counted
    and, when the write is delivered, received. *)
Lemma write_loop_spec accept msg tcs : forall deadConns cs,
  (write_loop accept msg tcs deadConns cs).1 =
    deadConns ++ filter (fun c => ~ delivers accept cs c) tcs /\
  length (write_loop accept msg tcs deadConns cs).2 = length cs /\
  (forall c, closed <$> (write_loop accept msg tcs deadConns cs).2 !! c =
             closed <$> cs !! c) /\
  (forall c, c ∉ tcs ->
             (write_loop accept msg tcs deadConns cs).2 !! c = cs !! c) /\
  (NoDup tcs -> forall c k, c ∈ tcs -> cs !! c = Some k ->
     (write_loop accept msg tcs deadConns cs).2 !! c =
       Some {| closed := closed k;
               inbox := if delivers accept cs c then inbox k ++ [msg]
                        else inbox k;
               writes := S (writes k) |}).
Proof.
  induction tcs as [|c0 tcs IH]; intros deadConns cs; simpl.
  { rewrite app_nil_r. repeat split; try done.
    intros _ c k Hc. by apply elem_of_nil in Hc. }
  pose proof (WriteMessage_ok accept c0 msg cs) as Hok.
  destruct (WriteMessage (accept c0) c0 msg cs) as [ok cs1] eqn:Hw.
  simpl in Hok. subst ok.
  assert (Hcs1 : cs1 = (WriteMessage (accept c0) c0 msg cs).2) by by rewrite Hw.
  assert (Hclosed1 : forall c, closed <$> cs1 !! c = closed <$> cs !! c).
  { intros c. rewrite Hcs1. apply WriteMessage_closed. }
  destruct (IH (if delivers accept cs c0 then deadConns
                else deadConns ++ [c0]) cs1)
    as (Hdead & Hlen & Hclosed & Hother & Hin).
  split; [|split; [|split; [|split]]].
  - rewrite Hdead.
    rewrite (filter_agree_on (fun c => ~ delivers accept cs1 c)
               (fun c => ~ delivers accept cs c))
      by (intros c _; by rewrite (delivers_ext accept cs cs1)).
    rewrite filter_cons. destruct (delivers accept cs c0) eqn:Hd0.
    + rewrite decide_False; [done|]. intros Hn. by apply Hn.
    + rewrite decide_True by (by intros []). by rewrite <- app_assoc.
  - rewrite Hlen, Hcs1. apply WriteMessage_length.
  - intros c. by rewrite Hclosed, Hclosed1.
  - intros c Hc. apply not_elem_of_cons in Hc as [Hne Hc].
    rewrite Hother by done. rewrite Hcs1.
    by apply WriteMessage_lookup_ne.
  - intros Hnd c k Hc Hk. apply NoDup_cons in Hnd as [Hc0 Hnd].
    apply elem_of_cons in Hc as [->|Hc].
    + rewrite Hother by done. rewrite Hcs1.
      by apply WriteMessage_lookup_eq.
    + assert (c0 <> c) by (intros ->; done).
      rewrite (Hin Hnd c k Hc).
      * by rewrite (delivers_ext accept cs cs1).
      * rewrite Hcs1. by rewrite WriteMessage_lookup_ne.
Qed.

Lemma length_close_all ds : forall cs, length (close_all ds cs) = length cs.
Proof.
  induction ds as [|d ds IH]; intros cs; simpl; [done|].
  unfold close_all in *. simpl. by rewrite IH, length_Close.
Qed.

Lemma close_all_lookup_ne ds c : forall cs,
  c ∉ ds -> close_all ds cs !! c = cs !! c.
Proof.
  induction ds as [|d ds IH]; intros cs Hc; [done|].
  apply not_elem_of_cons in Hc as [Hne Hc].
  unfold close_all in *. simpl. rewrite IH by done.
  by apply Close_lookup_ne.
Qed.

Lemma close_all_keeps_closed ds c : forall cs,
  is_closed c cs -> is_closed c (close_all ds cs).
Proof.
  induction ds as [|d ds IH]; intros cs Hc; [done|].
  unfold close_all in *. simpl. apply IH. by apply Close_keeps_closed.
Qed.

Lemma close_all_is_closed ds c : forall cs,
  c ∈ ds -> c < length cs -> is_closed c (close_all ds cs).
Proof.
  induction ds as [|d ds IH]; intros cs Hc Hlen.
  { by apply elem_of_nil in Hc. }
  unfold close_all in *. simpl.
  apply elem_of_cons in Hc as [->|Hc].
  - apply (close_all_keeps_closed ds d). by apply Close_is_closed.
  - apply IH; [done|]. by rewrite length_Close.
Qed.

Lemma close_all_writes ds c : forall cs,
  writes <$> close_all ds cs !! c = writes <$> cs !! c.
Proof.
  induction ds as [|d ds IH]; intros cs; [done|].
  unfold close_all in *. simpl. by rewrite IH, Close_writes.
Qed.

Lemma close_all_inbox ds c : forall cs,
  inbox <$> close_all ds cs !! c = inbox <$> cs !! c.
Proof.
  induction ds as [|d ds IH]; intros cs; [done|].
  unfold close_all in *. simpl. by rewrite IH, Close_inbox.
Qed.

Lemma remove_dead_head_ne dead c tcs cs :
  c <> dead ->
  remove_dead dead (c :: tcs) cs =
    ((c :: (remove_dead dead tcs cs).1), (remove_dead dead tcs cs).2).
Proof.
  intros Hne. simpl. rewrite decide_False by done.
  by destruct (remove_dead dead tcs cs).
Qed.

Lemma prune_loop_skip c ds : forall tcs cs,
  c ∉ ds ->
  prune_loop ds (c :: tcs) cs =
    (c :: (prune_loop ds tcs cs).1, (prune_loop ds tcs cs).2).
Proof.
  induction ds as [|d ds IH]; intros tcs cs Hc; [done|].
  apply not_elem_of_cons in Hc as [Hne Hc].
  cbn [prune_loop]. rewrite remove_dead_head_ne by done.
  destruct (remove_dead d tcs cs) as [tcs1 cs1]. simpl.
  by apply IH.
Qed.

(** The clean-up, run on the consumers that fail a test, leaves the
    consumers that pass it, in their order, and closes the others. *)
Lemma prune_loop_filter (P : conn_id -> Prop) `{!forall c, Decision (P c)}
    tcs : forall cs,
  prune_loop (filter P tcs) tcs cs =
    (filter (fun c => ~ P c) tcs, close_all (filter P tcs) cs).
Proof.
  induction tcs as [|c tcs IH]; intros cs; [done|].
  rewrite !filter_cons. destruct (decide (P c)) as [Hc|Hc].
  - rewrite decide_False by tauto.
    cbn [prune_loop remove_dead]. rewrite decide_True by done.
    rewrite IH. reflexivity.
  - rewrite decide_True by done.
    rewrite prune_loop_skip.
    + by rewrite IH.
    + rewrite list_elem_of_filter. tauto.
Qed.

(** ** One pass of the broadcast *)

Lemma set_tailConns_same session :
  set_tailConns (tailConns session) session = session.
Proof. by destruct session. Qed.

Lemma filter_none_dead (P : conn_id -> Prop) `{!forall c, Decision (P c)}
    (tcs : list conn_id) :
  filter (fun c => ~ P c) tcs = [] -> filter P tcs = tcs.
Proof.
  induction tcs as [|c tcs IH]; [done|].
  rewrite !filter_cons. destruct (decide (P c)) as [Hc|Hc].
  - rewrite decide_False by tauto. intros Hnil. by rewrite IH.
  - by rewrite decide_True by done.
Qed.

Section Broadcast.
Context {go : GoLib}.

(** The state one pass leaves: the session keeps the consumers whose
    write was delivered, in their order; the others have been written to
    once like them, and are closed. *)
Lemma broadcastToTail_spec accept l entry s session :
  heap s !! l = Some session ->
  broadcastToTail accept l entry s =
    {| sessions := sessions s;
       heap :=
         <[l := set_tailConns
                  (filter (fun c => delivers accept (conns s) c)
                     (tailConns session)) session]> (heap s);
       conns :=
         close_all
           (filter (fun c => ~ delivers accept (conns s) c) (tailConns session))
           (write_loop accept (json_Marshal (LogEntry_json entry))
              (tailConns session) [] (conns s)).2;
       secret := secret s |}.
Proof.
  intros Hl. unfold broadcastToTail. rewrite Hl.
  destruct (tailConns session) as [|c0 tcs] eqn:Htcs.
  { assert (Hsame : set_tailConns [] session = session)
      by (rewrite <- Htcs; apply set_tailConns_same).
    simpl. rewrite filter_nil, Hsame, list_insert_id by done.
    by destruct s. }
  cbn [length Nat.eqb]. rewrite <- Htcs.
  set (msg := json_Marshal (LogEntry_json entry)).
  destruct (write_loop_spec accept msg (tailConns session) [] (conns s))
    as (Hdead & _).
  destruct (write_loop accept msg (tailConns session) [] (conns s))
    as [deadConns cs] eqn:Hw.
  simpl in Hdead. subst deadConns. simpl.
  set (dead := filter (fun c => ~ delivers accept (conns s) c)
                 (tailConns session)).
  destruct dead as [|d dead'] eqn:Hd.
  - simpl. subst dead. rewrite (filter_none_dead _ _ Hd).
    by rewrite set_tailConns_same, list_insert_id by done.
  - cbn [length Nat.ltb Nat.leb]. rewrite <- Hd. subst dead.
    rewrite prune_loop_filter. do 3 f_equal.
    apply list_filter_iff. intros c. split; [|tauto].
    intros Hnn. destruct (delivers accept (conns s) c); [done|].
    exfalso. apply Hnn. by intros [].
Qed.

Lemma broadcastToTail_missing accept l entry s :
  heap s !! l = None -> broadcastToTail accept l entry s = s.
Proof. intros Hl. unfold broadcastToTail. by rewrite Hl. Qed.

End Broadcast.

Section Pass.
Context {go : GoLib}.

Implicit Types (accept : conn_id -> bool) (l : loc) (entry : LogEntry)
  (s : Server) (c : conn_id).

Lemma tails_of_lookup s l session :
  heap s !! l = Some session -> tails_of s l = tailConns session.
Proof. intros Hl. unfold tails_of. by rewrite Hl. Qed.

Lemma broadcastToTail_sessions accept l entry s :
  sessions (broadcastToTail accept l entry s) = sessions s /\
  secret (broadcastToTail accept l entry s) = secret s.
Proof.
  destruct (heap s !! l) as [session|] eqn:Hl.
  - by rewrite (broadcastToTail_spec _ _ _ _ session).
  - by rewrite broadcastToTail_missing.
Qed.

Lemma broadcastToTail_heap accept l entry s l' :
  heap (broadcastToTail accept l entry s) !! l' =
    (fun session =>
       set_tailConns
         (if decide (l' = l)
          then filter (fun c => delivers accept (conns s) c) (tailConns session)
          else tailConns session) session) <$> heap s !! l'.
Proof.
  destruct (heap s !! l) as [session|] eqn:Hl.
  - rewrite (broadcastToTail_spec _ _ _ _ session) by done. simpl.
    destruct (decide (l' = l)) as [->|Hne].
    + rewrite list_lookup_insert_eq by (by eapply lookup_lt_Some).
      by rewrite Hl.
    + rewrite list_lookup_insert_ne by done.
      destruct (heap s !! l') as [session'|]; simpl; [|done].
      by rewrite set_tailConns_same.
  - rewrite broadcastToTail_missing by done.
    destruct (decide (l' = l)) as [->|Hne].
    + by rewrite Hl.
    + destruct (heap s !! l') as [session'|]; simpl; [|done].
      by rewrite set_tailConns_same.
Qed.

Lemma broadcastToTail_tails accept l entry s l' :
  tails_of (broadcastToTail accept l entry s) l' =
    if decide (l' = l)
    then filter (fun c => delivers accept (conns s) c) (tails_of s l)
    else tails_of s l'.
Proof.
  unfold tails_of. rewrite broadcastToTail_heap.
  destruct (decide (l' = l)) as [->|Hne];
    by destruct (heap s !! _) as [session|].
Qed.

Lemma broadcastToTail_conns accept l entry s :
  conns (broadcastToTail accept l entry s) =
    close_all (filter (fun c => ~ delivers accept (conns s) c) (tails_of s l))
      (write_loop accept (json_Marshal (LogEntry_json entry))
         (tails_of s l) [] (conns s)).2.
Proof.
  destruct (heap s !! l) as [session|] eqn:Hl.
  - rewrite (broadcastToTail_spec _ _ _ _ session) by done.
    by rewrite (tails_of_lookup _ _ session).
  - rewrite broadcastToTail_missing by done.
    unfold tails_of. by rewrite Hl.
Qed.

Lemma broadcastToTail_length_conns accept l entry s :
  length (conns (broadcastToTail accept l entry s)) = length (conns s).
Proof.
  rewrite broadcastToTail_conns, length_close_all.
  apply write_loop_spec.
Qed.

Lemma broadcastToTail_conn_other accept l entry s c :
  c ∉ tails_of s l ->
  conns (broadcastToTail accept l entry s) !! c = conns s !! c.
Proof.
  intros Hc. rewrite broadcastToTail_conns.
  rewrite close_all_lookup_ne.
  - by apply write_loop_spec.
  - rewrite list_elem_of_filter. tauto.
Qed.

Lemma broadcastToTail_keeps_closed accept l entry s c :
  is_closed c (conns s) ->
  is_closed c (conns (broadcastToTail accept l entry s)).
Proof.
  intros Hc. rewrite broadcastToTail_conns.
  apply close_all_keeps_closed. unfold is_closed.
  destruct (write_loop_spec accept (json_Marshal (LogEntry_json entry))
              (tails_of s l) [] (conns s)) as (_ & _ & Hclosed & _).
  by rewrite Hclosed.
Qed.

(** A consumer whose write is delivered has received the frame and is
    as open as before. *)
Lemma broadcastToTail_conn_delivered accept l entry s c k :
  NoDup (tails_of s l) -> c ∈ tails_of s l -> conns s !! c = Some k ->
  delivers accept (conns s) c ->
  conns (broadcastToTail accept l entry s) !! c =
    Some {| closed := false;
            inbox := inbox k ++ [json_Marshal (LogEntry_json entry)];
            writes := S (writes k) |}.
Proof.
  intros Hnd Hc Hk Hd. rewrite broadcastToTail_conns.
  rewrite close_all_lookup_ne
    by (rewrite list_elem_of_filter; tauto).
  destruct (write_loop_spec accept (json_Marshal (LogEntry_json entry))
              (tails_of s l) [] (conns s)) as (_ & _ & _ & _ & Hin).
  rewrite (Hin Hnd c k Hc Hk).
  destruct (delivers accept (conns s) c) eqn:Hdc; [|done].
  unfold delivers in Hdc. apply andb_true_iff in Hdc as [_ Hopen].
  apply bool_decide_eq_true in Hopen. rewrite Hk in Hopen.
  by injection Hopen as ->.
Qed.

(** A consumer whose write fails has been written to once, has received
    nothing, and is closed. *)
Lemma broadcastToTail_conn_dead accept l entry s c k :
  NoDup (tails_of s l) -> c ∈ tails_of s l -> conns s !! c = Some k ->
  ~ delivers accept (conns s) c ->
  conns (broadcastToTail accept l entry s) !! c =
    Some {| closed := true; inbox := inbox k; writes := S (writes k) |}.
Proof.
  intros Hnd Hc Hk Hd.
  set (msg := json_Marshal (LogEntry_json entry)).
  set (dead := filter (fun c => ~ delivers accept (conns s) c) (tails_of s l)).
  set (cs1 := (write_loop accept msg (tails_of s l) [] (conns s)).2).
  assert (Hconns : conns (broadcastToTail accept l entry s) = close_all dead cs1)
    by apply broadcastToTail_conns.
  destruct (write_loop_spec accept msg (tails_of s l) [] (conns s))
    as (_ & Hlen & _ & _ & Hin).
  assert (Hk1 : cs1 !! c =
    Some {| closed := closed k; inbox := inbox k; writes := S (writes k) |}).
  { unfold cs1. rewrite (Hin Hnd c k Hc Hk).
    by destruct (delivers accept (conns s) c). }
  assert (Hcl : is_closed c (close_all dead cs1)).
  { apply close_all_is_closed.
    - unfold dead. by rewrite list_elem_of_filter.
    - unfold cs1. rewrite Hlen. by eapply lookup_lt_Some. }
  pose proof (close_all_writes dead c cs1) as Hw.
  pose proof (close_all_inbox dead c cs1) as Hi.
  rewrite Hconns. unfold is_closed in Hcl. rewrite Hk1 in Hw, Hi.
  destruct (close_all dead cs1 !! c) as [k'|]; [|done].
  simpl in *. destruct k'. simpl in *. congruence.
Qed.

(** ** One frame of a producer *)

Lemma stream_frame_eq now accept l message s :
  stream_frame now accept l message s =
    broadcastToTail accept l (parse_entry now message)
      (stored (parse_entry now message) l s).
Proof. reflexivity. Qed.

Lemma tails_of_stored entry l s l' :
  tails_of (stored entry l s) l' = tails_of s l'.
Proof.
  unfold tails_of. simpl. destruct (decide (l = l')) as [->|Hne].
  - rewrite list_lookup_alter_eq. by destruct (heap s !! l').
  - by rewrite list_lookup_alter_ne.
Qed.

Lemma stream_frame_sessions now accept l message s :
  sessions (stream_frame now accept l message s) = sessions s /\
  secret (stream_frame now accept l message s) = secret s.
Proof.
  rewrite stream_frame_eq.
  by destruct (broadcastToTail_sessions accept l (parse_entry now message)
                 (stored (parse_entry now message) l s)) as [-> ->].
Qed.

Lemma stream_frame_tails now accept l message s l' :
  tails_of (stream_frame now accept l message s) l' =
    if decide (l' = l)
    then filter (fun c => delivers accept (conns s) c) (tails_of s l)
    else tails_of s l'.
Proof.
  rewrite stream_frame_eq, broadcastToTail_tails.
  by rewrite !tails_of_stored.
Qed.

Lemma stream_frame_length_conns now accept l message s :
  length (conns (stream_frame now accept l message s)) = length (conns s).
Proof. by rewrite stream_frame_eq, broadcastToTail_length_conns. Qed.

Lemma stream_frame_conn_other now accept l message s c :
  c ∉ tails_of s l ->
  conns (stream_frame now accept l message s) !! c = conns s !! c.
Proof.
  intros Hc. rewrite stream_frame_eq.
  rewrite broadcastToTail_conn_other; [done|].
  by rewrite tails_of_stored.
Qed.

Lemma stream_frame_keeps_closed now accept l message s c :
  is_closed c (conns s) ->
  is_closed c (conns (stream_frame now accept l message s)).
Proof.
  intros Hc. rewrite stream_frame_eq.
  by apply broadcastToTail_keeps_closed.
Qed.

Lemma stream_frame_conn_delivered now accept l message s c k :
  NoDup (tails_of s l) -> c ∈ tails_of s l -> conns s !! c = Some k ->
  delivers accept (conns s) c ->
  conns (stream_frame now accept l message s) !! c =
    Some {| closed := false;
            inbox := inbox k ++
                     [json_Marshal (LogEntry_json (parse_entry now message))];
            writes := S (writes k) |}.
Proof.
  intros Hnd Hc Hk Hd. rewrite stream_frame_eq.
  apply broadcastToTail_conn_delivered; by rewrite ?tails_of_stored.
Qed.

Lemma stream_frame_conn_dead now accept l message s c k :
  NoDup (tails_of s l) -> c ∈ tails_of s l -> conns s !! c = Some k ->
  ~ delivers accept (conns s) c ->
  conns (stream_frame now accept l message s) !! c =
    Some {| closed := true; inbox := inbox k; writes := S (writes k) |}.
Proof.
  intros Hnd Hc Hk Hd. rewrite stream_frame_eq.
  apply broadcastToTail_conn_dead; by rewrite ?tails_of_stored.
Qed.

Lemma stream_frame_heap now accept l message s session :
  heap s !! l = Some session ->
  heap (stream_frame now accept l message s) !! l =
    Some (set_tailConns
            (filter (fun c => delivers accept (conns s) c) (tailConns session))
            (append_log (parse_entry now message) session)).
Proof.
  intros Hl. rewrite stream_frame_eq, broadcastToTail_heap. simpl.
  rewrite list_lookup_alter_eq, Hl. simpl.
  by rewrite decide_True by done.
Qed.

Lemma parse_entry_raw now message e :
  json_Unmarshal message = Err e ->
  parse_entry now message = {| Timestamp := now; Message := message |}.
Proof.
  intros He. unfold parse_entry. rewrite He. simpl.
  by destruct (IsZero now).
Qed.

Lemma parse_entry_structured now message parsed :
  json_Unmarshal message = Ok parsed ->
  parse_entry now message =
    {| Timestamp := if IsZero (Timestamp parsed) then now else Timestamp parsed;
       Message := Message parsed |}.
Proof.
  intros Hp. unfold parse_entry. rewrite Hp.
  destruct (IsZero (Timestamp parsed)); [done|]. by destruct parsed.
Qed.

(** C7: a frame of a producer is never rejected.  One entry is added at
    the end of the logs of the session, whatever the frame: a frame that
    does not parse is stored with the raw payload as its message and the
    arrival time as its timestamp; a frame that parses keeps its message,
    and its timestamp unless that is absent or zero, in which case the
    arrival time is used. *)
Theorem stream_frame_never_rejects now accept l message s session :
  heap s !! l = Some session ->
  exists entry session',
    heap (stream_frame now accept l message s) !! l = Some session' /\
    Logs session' = Logs session ++ [entry] /\
    LogCount session' = S (length (Logs session)) /\
    match json_Unmarshal message with
    | Err _ => entry = {| Timestamp := now; Message := message |}
    | Ok parsed =>
        Message entry = Message parsed /\
        (Timestamp parsed = 0%Z -> Timestamp entry = now) /\
        (Timestamp parsed <> 0%Z -> Timestamp entry = Timestamp parsed)
    end.
Proof.
  intros Hl. exists (parse_entry now message).
  eexists. split; [by apply stream_frame_heap|].
  simpl. split; [done|]. split.
  { rewrite length_app. simpl. lia. }
  destruct (json_Unmarshal message) as [parsed|e] eqn:Hp.
  - rewrite (parse_entry_structured _ _ parsed) by done. simpl.
    unfold IsZero. split; [done|].
    destruct (Z.eqb_spec (Timestamp parsed) 0); split; intros; congruence.
  - by rewrite (parse_entry_raw _ _ e).
Qed.

End Pass.

Lemma stream_frame_never_rejects_witness :
  let go := Fragment.fragment in
  Logs <$> heap (stream_frame (seconds 1001) (fun _ => true) 0
                   (Fragment.msg_frame "boot") one_entry_server) !! 0
  = Some [ {| Timestamp := seconds 1000; Message := "hello raw" |};
           {| Timestamp := seconds 1001; Message := "boot" |} ] /\
  Logs <$> heap (stream_frame (seconds 1002) (fun _ => true) 0
                   "not json" one_entry_server) !! 0
  = Some [ {| Timestamp := seconds 1000; Message := "hello raw" |};
           {| Timestamp := seconds 1002; Message := "not json" |} ].
Proof.
  intros go.
  assert (Hl : heap one_entry_server !! 0 =
    Some {| DeviceHash := "abc"; Name := "phone"; IPv4 := ""; IPv6 := "";
            Connected := seconds 900;
            Logs := [{| Timestamp := seconds 1000; Message := "hello raw" |}];
            LogCount := 1; conn := Some 0; tailConns := [] |})
    by (vm_compute; reflexivity).
  split.
  - destruct (stream_frame_never_rejects (go := go) (seconds 1001)
                (fun _ => true) 0 (Fragment.msg_frame "boot")
                one_entry_server _ Hl)
      as (entry & session' & Hheap & Hlogs & _ & Hentry).
    rewrite Hheap. simpl. rewrite Hlogs.
    destruct entry as [ts msg]. simpl in Hentry.
    destruct Hentry as (-> & -> & _); reflexivity.
  - destruct (stream_frame_never_rejects (go := go) (seconds 1002)
                (fun _ => true) 0 "not json" one_entry_server _ Hl)
      as (entry & session' & Hheap & Hlogs & _ & Hentry).
    rewrite Hheap. simpl. rewrite Hlogs.
    simpl in Hentry. by rewrite Hentry.
Defined.

(** ** The end of a producer connection *)

(** C3, as the code has it: when the connection of a producer ends by a
    transport close or a read error, the session stays in the registry
    with every field unchanged, the producer handle included: the handle
    is not set to null, it still designates the connection, and that
    connection is closed. *)
Theorem stream_closed_keeps_session s d session c k :
  lookup_session s d = Some session ->
  conn session = Some c ->
  conns s !! c = Some k ->
  sessions (stream_closed c s) = sessions s /\
  heap (stream_closed c s) = heap s /\
  lookup_session (stream_closed c s) d = Some session /\
  conns (stream_closed c s) !! c =
    Some {| closed := true; inbox := inbox k; writes := writes k |} /\
  (forall c', c' <> c -> conns (stream_closed c s) !! c' = conns s !! c').
Proof.
  intros Hfound Hconn Hk. repeat split; try done.
  - simpl. by rewrite Close_lookup_eq, Hk.
  - intros c' Hne. simpl. by apply Close_lookup_ne.
Qed.

Lemma stream_closed_keeps_session_witness :
  lookup_session (stream_closed 0 connected_server) "abc" =
    Some {| DeviceHash := "abc"; Name := "phone"; IPv4 := ""; IPv6 := "";
            Connected := seconds 900; Logs := []; LogCount := 0;
            conn := Some 0; tailConns := [] |} /\
  conns (stream_closed 0 connected_server) !! 0 =
    Some {| closed := true; inbox := []; writes := 0 |}.
Proof.
  destruct (stream_closed_keeps_session connected_server "abc"
              {| DeviceHash := "abc"; Name := "phone"; IPv4 := ""; IPv6 := "";
                 Connected := seconds 900; Logs := []; LogCount := 0;
                 conn := Some 0; tailConns := [] |}
              0 {| closed := false; inbox := []; writes := 0 |})
    as (_ & _ & Hsession & Hconn & _);
    [vm_compute; reflexivity | reflexivity | reflexivity |].
  split; [exact Hsession | exact Hconn].
Defined.

(** C3 fails as stated: after the producer of [abc] has gone, the
    producer handle of its session is the handle it was, not null. *)
Lemma stream_closed_handle_not_null :
  conn <$> lookup_session connected_server "abc" = Some (Some 0) /\
  conn <$> lookup_session (stream_closed 0 connected_server) "abc"
    = Some (Some 0) /\
  conn <$> lookup_session (stream_closed 0 connected_server) "abc"
    <> Some None.
Proof.
  split; [|split].
  - vm_compute. reflexivity.
  - vm_compute. reflexivity.
  - vm_compute. discriminate.
Qed.

(** ** Reconnects of a producer *)

Lemma handleStream_accepted now r s :
  Get (query r) "secret" = secret s ->
  Get (query r) "device" <> "" ->
  handleStream now true r s =
    (Streaming (length (heap s)) (length (conns s)),
     {| sessions := <[Get (query r) "device" := length (heap s)]> (sessions s);
        heap := heap s ++ [new_session now r (length (conns s))];
        conns :=
          evict (lookup_session s (Get (query r) "device"))
            (conns s ++ [{| closed := false; inbox := []; writes := 0 |}]);
        secret := secret s |}).
Proof.
  intros Hok Hdev. apply checkSecret_true in Hok.
  apply String.eqb_neq in Hdev.
  unfold handleStream. rewrite Hok, Hdev. reflexivity.
Qed.

Lemma length_evict old cs : length (evict old cs) = length cs.
Proof.
  unfold evict. destruct old as [o|]; [|done].
  destruct (conn o); [apply length_Close|done].
Qed.

Lemma evict_keeps_closed old cs c : is_closed c cs -> is_closed c (evict old cs).
Proof.
  unfold evict. destruct old as [o|]; [|done].
  destruct (conn o); [apply Close_keeps_closed|done].
Qed.

Lemma evict_lookup_other old cs c :
  (forall o, old = Some o -> conn o <> Some c) -> evict old cs !! c = cs !! c.
Proof.
  intros Hc. unfold evict. destruct old as [o|]; [|done].
  destruct (conn o) as [c0|] eqn:Hc0; [|done].
  apply Close_lookup_ne. intros ->. by apply (Hc o).
Qed.

Lemma reconnects_cons now r reqs s :
  reconnects ((now, r) :: reqs) s =
    ((handleStream now true r s).1 ::
       (reconnects reqs (handleStream now true r s).2).1,
     (reconnects reqs (handleStream now true r s).2).2).
Proof.
  cbn [reconnects]. destruct (handleStream now true r s) as [out s1].
  cbn [fst snd]. by destruct (reconnects reqs s1).
Qed.

(** C1, as the code has it: after a run of producer connects under one
    device, the registry returns the session of the last connect, which
    is a new one; the producer handle of every session created before it
    in the run, and of the session registered when the run began, is
    closed; the rest is left as it was: the sessions that existed keep
    their fields, their consumers included, and no connection other than
    those producer handles is closed or changed, so the consumers of a
    prior session stay open. *)
Theorem reconnects_last_session_wins d reqs : forall s,
  d <> "" ->
  reqs <> [] ->
  (forall now r, (now, r) ∈ reqs ->
     Get (query r) "secret" = secret s /\ Get (query r) "device" = d) ->
  exists created l c new,
    (reconnects reqs s).1 = streaming <$> (created ++ [(l, c)]) /\
    sessions (reconnects reqs s).2 !! d = Some l /\
    heap (reconnects reqs s).2 !! l = Some new /\
    conn new = Some c /\ Logs new = [] /\ tailConns new = [] /\
    length (heap s) <= l /\ length (conns s) <= c /\
    (forall l0 c0, (l0, c0) ∈ created ->
       is_closed c0 (conns (reconnects reqs s).2)) /\
    (forall old c0,
       lookup_session s d = Some old -> conn old = Some c0 ->
       c0 < length (conns s) ->
       is_closed c0 (conns (reconnects reqs s).2)) /\
    (forall l0, l0 < length (heap s) ->
       heap (reconnects reqs s).2 !! l0 = heap s !! l0) /\
    (forall c', c' < length (conns s) ->
       (forall old, lookup_session s d = Some old -> conn old <> Some c') ->
       conns (reconnects reqs s).2 !! c' = conns s !! c').
Proof.
  induction reqs as [|[now r] reqs IH]; intros s Hd Hne Hreqs; [done|].
  destruct (Hreqs now r) as [Hsecret Hdevice]; [left|].
  assert (Hdev : Get (query r) "device" <> "") by by rewrite Hdevice.
  pose proof (handleStream_accepted now r s Hsecret Hdev) as Hstep.
  rewrite Hdevice in Hstep.
  set (l1 := length (heap s)) in *. set (c1 := length (conns s)) in *.
  set (fresh := {| closed := false; inbox := []; writes := 0 |}) in *.
  set (s1 := {| sessions := <[d := l1]> (sessions s);
                heap := heap s ++ [new_session now r c1];
                conns := evict (lookup_session s d) (conns s ++ [fresh]);
                secret := secret s |}) in *.
  assert (Hl1 : heap s1 !! l1 = Some (new_session now r c1))
    by (simpl; apply list_lookup_middle; done).
  assert (Hlook1 : lookup_session s1 d = Some (new_session now r c1)).
  { unfold lookup_session. simpl. by rewrite lookup_insert_eq. }
  assert (Hheap1 : forall l0, l0 < l1 -> heap s1 !! l0 = heap s !! l0)
    by (intros l0 Hl0; simpl; by apply lookup_app_l).
  assert (Hlen1 : length (conns s1) = S c1).
  { simpl. rewrite length_evict, length_app. simpl. lia. }
  assert (Hold1 : forall old c0,
    lookup_session s d = Some old -> conn old = Some c0 -> c0 < c1 ->
    is_closed c0 (conns s1)).
  { intros old c0 Hold Hc0 Hlt. simpl. rewrite Hold. simpl. rewrite Hc0.
    apply Close_is_closed. rewrite length_app. simpl. lia. }
  assert (Hother1 : forall c', c' < c1 ->
    (forall old, lookup_session s d = Some old -> conn old <> Some c') ->
    conns s1 !! c' = conns s !! c').
  { intros c' Hlt Hc'. simpl. rewrite evict_lookup_other by done.
    by apply lookup_app_l. }
  rewrite reconnects_cons, Hstep. cbn [fst snd]. fold s1.
  destruct reqs as [|req2 reqs'].
  { exists [], l1, c1, (new_session now r c1). simpl.
    split; [done|]. split; [by rewrite lookup_insert_eq|].
    split; [exact Hl1|]. do 3 (split; [done|]).
    split; [lia|]. split; [lia|].
    split; [intros l0 c0 Hin; by apply elem_of_nil in Hin|].
    split; [exact Hold1|]. split; [exact Hheap1|exact Hother1]. }
  destruct (IH s1 Hd) as
    (created & l & c & new & Houts & Hreg & Hnew & Hconn & Hlogs & Htails &
     Hl & Hc & Hcreated & Hold & Hheap & Hother); [done| |].
  { intros now' r' Hin. apply (Hreqs now' r'). by right. }
  exists ((l1, c1) :: created), l, c, new.
  split; [by rewrite Houts|]. split; [done|]. split; [done|].
  do 3 (split; [done|]).
  assert (Hlenh : length (heap s1) = S l1)
    by (simpl; rewrite length_app; simpl; lia).
  rewrite Hlenh in Hl, Hheap.
  rewrite Hlen1 in Hc, Hold, Hother.
  split; [lia|]. split; [lia|].
  split; [|split; [|split]].
  - intros l0 c0 Hin. apply elem_of_cons in Hin as [Heq|Hin].
    + injection Heq as -> ->.
      apply (Hold (new_session now r c1)); [exact Hlook1|done|lia].
    + by apply (Hcreated l0).
  - intros old c0 Hfound Hc0 Hlt. unfold is_closed.
    rewrite Hother.
    + by apply (Hold1 old).
    + lia.
    + intros old' Hold'. rewrite Hlook1 in Hold'. injection Hold' as <-.
      simpl. intros [= ->]. lia.
  - intros l0 Hl0. rewrite Hheap by lia. by apply Hheap1.
  - intros c' Hlt Hc'. rewrite Hother.
    + by apply Hother1.
    + lia.
    + intros old' Hold'. rewrite Hlook1 in Hold'. injection Hold' as <-.
      simpl. intros [= ->]. lia.
Qed.

Lemma reconnects_last_session_wins_witness :
  exists l,
    sessions
      (reconnects [(seconds 950, stream_abc); (seconds 990, stream_abc)]
         tailed_server).2 !! "abc" = Some l /\
    1 <= l /\
    is_closed 0
      (conns (reconnects [(seconds 950, stream_abc); (seconds 990, stream_abc)]
                tailed_server).2) /\
    conns (reconnects [(seconds 950, stream_abc); (seconds 990, stream_abc)]
             tailed_server).2 !! 1 = conns tailed_server !! 1.
Proof.
  destruct (reconnects_last_session_wins "abc"
              [(seconds 950, stream_abc); (seconds 990, stream_abc)]
              tailed_server)
    as (created & l & c & new & _ & Hreg & _ & _ & _ & _ & Hl & _ & _ &
        Hold & _ & Hother).
  - discriminate.
  - discriminate.
  - intros now r Hin.
    apply elem_of_cons in Hin as [Heq|Hin];
      [|apply list_elem_of_singleton in Hin as Heq];
      injection Heq as -> ->; split; reflexivity.
  - exists l. split; [exact Hreg|]. split; [exact Hl|]. split.
    + apply (Hold {| DeviceHash := "abc"; Name := "phone"; IPv4 := "";
                     IPv6 := ""; Connected := seconds 900; Logs := [];
                     LogCount := 0; conn := Some 0; tailConns := [1] |} 0);
        [vm_compute; reflexivity | reflexivity | vm_compute; lia].
    + apply Hother; [vm_compute; lia|].
      intros old Hfound. vm_compute in Hfound. injection Hfound as <-.
      discriminate.
Defined.

(** C1 fails as stated: a consumer is attached to the session of [abc],
    then the producer reconnects.  The registry returns the new session
    and the producer handle of the prior session is closed, but the
    consumer of the prior session is still attached to it and is not
    closed. *)
Lemma reconnect_leaves_consumers_open :
  let s := (reconnects [(seconds 950, stream_abc)] tailed_server).2 in
  sessions tailed_server !! "abc" = Some 0 /\
  tails_of tailed_server 0 = [1] /\
  sessions s !! "abc" = Some 1 /\
  is_closed 0 (conns s) /\
  tails_of s 0 = [1] /\
  conns s !! 1 = Some {| closed := false; inbox := []; writes := 0 |} /\
  ~ is_closed 1 (conns s).
Proof.
  intros s. repeat split; try (vm_compute; reflexivity).
  vm_compute. discriminate.
Qed.

(** ** The invariant of the consumer sets *)

Lemma tails_of_NewServer k l : tails_of (NewServer k) l = [].
Proof. by destruct l. Qed.

Lemma consumers_wf_NewServer k : consumers_wf (NewServer k).
Proof.
  repeat split.
  - intros l. rewrite tails_of_NewServer. constructor.
  - intros l c Hc. rewrite tails_of_NewServer in Hc.
    by apply elem_of_nil in Hc.
  - intros l1 l2 c Hc. rewrite tails_of_NewServer in Hc.
    by apply elem_of_nil in Hc.
Qed.

Lemma consumers_wf_shrink s s' :
  consumers_wf s ->
  (forall l, tails_of s' l `sublist_of` tails_of s l) ->
  length (conns s) <= length (conns s') ->
  consumers_wf s'.
Proof.
  intros (Hnd & Hlt & Hone) Hsub Hlen. repeat split.
  - intros l. eapply sublist_NoDup; [apply Hnd|apply Hsub].
  - intros l c Hc. eapply elem_of_sublist in Hc; [|apply Hsub].
    apply Hlt in Hc. lia.
  - intros l1 l2 c Hc1 Hc2.
    eapply elem_of_sublist in Hc1; [|apply Hsub].
    eapply elem_of_sublist in Hc2; [|apply Hsub].
    by apply (Hone l1 l2 c).
Qed.

Lemma handleTail_outcome upgrade_ok r s :
  (handleTail upgrade_ok r s).2 = s \/
  exists l,
    sessions s !! device_of_path "/tail/" (path r) = Some l /\
    handleTail upgrade_ok r s = (Tailing l (length (conns s)), attach l s).
Proof.
  unfold handleTail, device_of_path.
  destruct (negb (checkSecret s r)); [by left|].
  destruct (String.eqb _ ""); [by left|].
  destruct (sessions s !! _) as [l|] eqn:Hl; [|by left].
  destruct upgrade_ok; [|by left].
  right. by exists l.
Qed.

Lemma handleStream_outcome now upgrade_ok r s :
  (handleStream now upgrade_ok r s).2 = s \/
  (upgrade_ok = true /\ Get (query r) "secret" = secret s /\
   Get (query r) "device" <> "").
Proof.
  unfold handleStream.
  destruct (checkSecret s r) eqn:Hok; [|by left]. simpl.
  destruct (String.eqb_spec (Get (query r) "device") ""); [by left|].
  destruct upgrade_ok; [|by left].
  right. by apply checkSecret_true in Hok.
Qed.

Lemma tails_of_attach_ne l l' s : l' <> l -> tails_of (attach l s) l' = tails_of s l'.
Proof.
  intros Hne. unfold tails_of. simpl. by rewrite list_lookup_alter_ne.
Qed.

Lemma tails_of_attach_eq l s :
  tails_of (attach l s) l =
    if decide (l < length (heap s)) then tails_of s l ++ [length (conns s)]
    else [].
Proof.
  unfold tails_of. simpl. rewrite list_lookup_alter_eq.
  destruct (heap s !! l) as [session|] eqn:Hl; simpl.
  - rewrite decide_True; [done|]. by eapply lookup_lt_Some.
  - rewrite decide_False; [done|]. apply lookup_ge_None in Hl. lia.
Qed.

Lemma elem_of_tails_attach l l' s c :
  c ∈ tails_of (attach l s) l' ->
  c ∈ tails_of s l' \/ (c = length (conns s) /\ l' = l).
Proof.
  destruct (decide (l' = l)) as [->|Hne].
  - rewrite tails_of_attach_eq. case_decide.
    + rewrite elem_of_app, list_elem_of_singleton.
      intros [Hc| ->]; [by left|by right].
    + intros Hc. by apply elem_of_nil in Hc.
  - rewrite tails_of_attach_ne by done. by left.
Qed.

Lemma consumers_wf_attach l s : consumers_wf s -> consumers_wf (attach l s).
Proof.
  intros (Hnd & Hlt & Hone).
  assert (Hnew : forall l0, length (conns s) ∉ tails_of s l0).
  { intros l0 Hin. apply Hlt in Hin. lia. }
  repeat split.
  - intros l'. destruct (decide (l' = l)) as [->|Hne].
    + rewrite tails_of_attach_eq. case_decide; [|constructor].
      apply NoDup_app. split; [apply Hnd|]. split; [|apply NoDup_singleton].
      intros c Hc Hc'. apply list_elem_of_singleton in Hc' as ->.
      by apply (Hnew l).
    + rewrite tails_of_attach_ne by done. apply Hnd.
  - intros l' c Hc. simpl. rewrite length_app. simpl.
    apply elem_of_tails_attach in Hc as [Hc|[-> _]]; [|lia].
    apply Hlt in Hc. lia.
  - intros l1 l2 c Hc1 Hc2.
    apply elem_of_tails_attach in Hc1 as [Hc1|[-> ->]];
      apply elem_of_tails_attach in Hc2 as [Hc2|[Hc ->]]; try done.
    + by apply (Hone l1 l2 c).
    + subst c. by destruct (Hnew l1).
    + by destruct (Hnew l2).
Qed.

Lemma handleStream_tails now upgrade_ok r s l :
  tails_of (handleStream now upgrade_ok r s).2 l = tails_of s l.
Proof.
  destruct (handleStream_outcome now upgrade_ok r s)
    as [->|(-> & Hok & Hdev)]; [done|].
  rewrite handleStream_accepted by done. unfold tails_of. simpl.
  destruct (decide (l < length (heap s))) as [Hlt|Hge].
  - by rewrite lookup_app_l.
  - rewrite (lookup_ge_None_2 (heap s)) by lia.
    destruct (decide (l = length (heap s))) as [->|Hne].
    + by rewrite list_lookup_middle.
    + rewrite lookup_ge_None_2; [done|]. rewrite length_app. simpl. lia.
Qed.

Lemma handleStream_length_conns now upgrade_ok r s :
  length (conns s) <= length (conns (handleStream now upgrade_ok r s).2).
Proof.
  destruct (handleStream_outcome now upgrade_ok r s)
    as [->|(-> & Hok & Hdev)]; [done|].
  rewrite handleStream_accepted by done. simpl.
  rewrite length_evict, length_app. simpl. lia.
Qed.

Lemma remove_conn_sublist c tcs : remove_conn c tcs `sublist_of` tcs.
Proof.
  induction tcs as [|x tcs IH]; simpl; [done|].
  case_decide; [by apply sublist_cons|by apply sublist_skip].
Qed.

Lemma tail_closed_tails l c s l' :
  tails_of (tail_closed l c s) l' `sublist_of` tails_of s l'.
Proof.
  unfold tails_of. simpl. destruct (decide (l = l')) as [->|Hne].
  - rewrite list_lookup_alter_eq.
    destruct (heap s !! l'); simpl; [apply remove_conn_sublist|done].
  - by rewrite list_lookup_alter_ne.
Qed.

Lemma evict_writes old cs c : writes <$> evict old cs !! c = writes <$> cs !! c.
Proof.
  unfold evict. destruct old as [o|]; [|done].
  destruct (conn o); [apply Close_writes|done].
Qed.

Lemma evict_inbox old cs c : inbox <$> evict old cs !! c = inbox <$> cs !! c.
Proof.
  unfold evict. destruct old as [o|]; [|done].
  destruct (conn o); [apply Close_inbox|done].
Qed.

Section Runs.
Context {go : GoLib}.

Lemma run_cons ev tr s : run (ev :: tr) s = run tr (exec ev s).
Proof. reflexivity. Qed.

Lemma exec_length_conns ev s :
  length (conns s) <= length (conns (exec ev s)).
Proof.
  destruct ev as [now up r|now accept l message|c|up r|l c]; simpl.
  - apply handleStream_length_conns.
  - by rewrite stream_frame_length_conns.
  - by rewrite length_Close.
  - destruct (handleTail_outcome up r s) as [->|(l & _ & ->)]; [done|].
    simpl. rewrite length_app. simpl. lia.
  - by rewrite length_Close.
Qed.

Lemma exec_keeps_closed ev s c :
  is_closed c (conns s) -> is_closed c (conns (exec ev s)).
Proof.
  intros Hc.
  destruct ev as [now up r|now accept l message|c0|up r|l c0]; simpl.
  - destruct (handleStream_outcome now up r s)
      as [->|(-> & Hok & Hdev)]; [done|].
    rewrite handleStream_accepted by done. simpl.
    apply evict_keeps_closed. unfold is_closed in *.
    destruct (conns s !! c) as [k|] eqn:Hk; [|done].
    by rewrite (lookup_app_l_Some _ _ _ k).
  - by apply stream_frame_keeps_closed.
  - by apply Close_keeps_closed.
  - destruct (handleTail_outcome up r s) as [->|(l & _ & ->)]; [done|].
    simpl. unfold is_closed in *.
    destruct (conns s !! c) as [k|] eqn:Hk; [|done].
    by rewrite (lookup_app_l_Some _ _ _ k).
  - by apply Close_keeps_closed.
Qed.

(** An event attaches at most the connection it creates. *)
Lemma exec_tails ev s l c :
  c ∈ tails_of (exec ev s) l -> c ∈ tails_of s l \/ c = length (conns s).
Proof.
  destruct ev as [now up r|now accept l0 message|c0|up r|l0 c0]; simpl.
  - rewrite handleStream_tails. by left.
  - rewrite stream_frame_tails. case_decide; [subst l|by left].
    rewrite list_elem_of_filter. intros [_ Hc]. by left.
  - by left.
  - destruct (handleTail_outcome up r s) as [->|(l0 & _ & ->)]; [by left|].
    simpl. intros Hc. apply elem_of_tails_attach in Hc as [Hc|[-> _]];
      [by left|by right].
  - intros Hc. left. eapply elem_of_sublist; [exact Hc|].
    apply tail_closed_tails.
Qed.

Lemma consumers_wf_exec ev s : consumers_wf s -> consumers_wf (exec ev s).
Proof.
  intros Hwf.
  destruct ev as [now up r|now accept l0 message|c0|up r|l0 c0]; simpl.
  - apply (consumers_wf_shrink s); [done| |apply handleStream_length_conns].
    intros l. by rewrite handleStream_tails.
  - apply (consumers_wf_shrink s); [done| |].
    + intros l. rewrite stream_frame_tails. case_decide; [subst l|done].
      apply sublist_filter.
    + by rewrite stream_frame_length_conns.
  - apply (consumers_wf_shrink s); [done|done|].
    simpl. by rewrite length_Close.
  - destruct (handleTail_outcome up r s) as [->|(l0 & _ & ->)]; [done|].
    by apply consumers_wf_attach.
  - apply (consumers_wf_shrink s); [done|apply tail_closed_tails|].
    simpl. by rewrite length_Close.
Qed.

Lemma consumers_wf_run tr : forall s, consumers_wf s -> consumers_wf (run tr s).
Proof.
  induction tr as [|ev tr IH]; intros s Hwf; [done|].
  rewrite run_cons. apply IH. by apply consumers_wf_exec.
Qed.

(** Every state the server reaches from its start satisfies the
    invariant. *)
Lemma consumers_wf_reachable k tr : consumers_wf (run tr (NewServer k)).
Proof. apply consumers_wf_run, consumers_wf_NewServer. Qed.

(** A detached connection stays detached, and no event writes to it. *)
Lemma exec_detached ev s c :
  c < length (conns s) -> detached c s ->
  detached c (exec ev s) /\
  writes <$> conns (exec ev s) !! c = writes <$> conns s !! c /\
  inbox <$> conns (exec ev s) !! c = inbox <$> conns s !! c.
Proof.
  intros Hlt Hdet. split.
  { intros l Hc. apply exec_tails in Hc as [Hc| ->]; [|lia].
    by apply (Hdet l). }
  destruct ev as [now up r|now accept l0 message|c0|up r|l0 c0]; simpl.
  - destruct (handleStream_outcome now up r s)
      as [->|(-> & Hok & Hdev)]; [done|].
    rewrite handleStream_accepted by done. simpl.
    rewrite evict_writes, evict_inbox. by rewrite lookup_app_l.
  - by rewrite stream_frame_conn_other by apply Hdet.
  - by rewrite Close_writes, Close_inbox.
  - destruct (handleTail_outcome up r s) as [->|(l0 & _ & ->)]; [done|].
    simpl. by rewrite lookup_app_l.
  - by rewrite Close_writes, Close_inbox.
Qed.

Lemma run_detached tr c : forall s,
  c < length (conns s) -> detached c s ->
  detached c (run tr s) /\
  writes <$> conns (run tr s) !! c = writes <$> conns s !! c /\
  inbox <$> conns (run tr s) !! c = inbox <$> conns s !! c.
Proof.
  induction tr as [|ev tr IH]; intros s Hlt Hdet; [done|].
  rewrite run_cons.
  destruct (exec_detached ev s c Hlt Hdet) as (Hdet1 & Hw1 & Hi1).
  destruct (IH (exec ev s)) as (Hdet2 & Hw2 & Hi2); [|done|].
  { pose proof (exec_length_conns ev s). lia. }
  split; [done|]. split; congruence.
Qed.

Lemma run_keeps_closed tr c : forall s,
  is_closed c (conns s) -> is_closed c (conns (run tr s)).
Proof.
  induction tr as [|ev tr IH]; intros s Hc; [done|].
  rewrite run_cons. apply IH. by apply exec_keeps_closed.
Qed.

End Runs.

(** ** The invariant of the registry *)

Section Registry.
Context {go : GoLib}.

Lemma broadcastToTail_length_heap accept l entry s :
  length (heap (broadcastToTail accept l entry s)) = length (heap s).
Proof.
  destruct (heap s !! l) as [session|] eqn:Hl.
  - rewrite (broadcastToTail_spec _ _ _ _ session) by done. simpl.
    apply length_insert.
  - by rewrite broadcastToTail_missing.
Qed.

Lemma stream_frame_length_heap now accept l message s :
  length (heap (stream_frame now accept l message s)) = length (heap s).
Proof.
  rewrite stream_frame_eq, broadcastToTail_length_heap. simpl.
  apply length_alter.
Qed.

Lemma registry_wf_exec ev s : registry_wf s -> registry_wf (exec ev s).
Proof.
  intros Hwf d l.
  destruct ev as [now up r|now accept l0 message|c0|up r|l0 c0]; simpl.
  - destruct (handleStream_outcome now up r s)
      as [->|(-> & Hok & Hdev)]; [apply Hwf|].
    rewrite handleStream_accepted by done. simpl.
    rewrite length_app. simpl.
    destruct (decide (Get (query r) "device" = d)) as [->|Hne].
    + rewrite lookup_insert_eq. intros [= <-]. lia.
    + rewrite lookup_insert_ne by done. intros Hd. apply Hwf in Hd. lia.
  - destruct (stream_frame_sessions now accept l0 message s) as [-> _].
    rewrite stream_frame_length_heap. apply Hwf.
  - apply Hwf.
  - destruct (handleTail_outcome up r s) as [->|(l0 & _ & ->)]; [apply Hwf|].
    simpl. rewrite length_alter. apply Hwf.
  - rewrite length_alter. apply Hwf.
Qed.

Lemma registry_wf_run tr : forall s, registry_wf s -> registry_wf (run tr s).
Proof.
  induction tr as [|ev tr IH]; intros s Hwf; [done|].
  rewrite run_cons. apply IH. by apply registry_wf_exec.
Qed.

Lemma registry_wf_reachable k tr : registry_wf (run tr (NewServer k)).
Proof.
  apply registry_wf_run. intros d l Hd. simpl in Hd.
  by rewrite lookup_empty in Hd.
Qed.

End Registry.

(** ** Reconnects among the other events *)

Section Interleaved.
Context {go : GoLib}.

Lemma exec_conn_field ev s l :
  l < length (heap s) ->
  conn <$> heap (exec ev s) !! l = conn <$> heap s !! l.
Proof.
  intros Hl.
  destruct ev as [now up r|now accept l0 message|c0|up r|l0 c0]; simpl.
  - destruct (handleStream_outcome now up r s)
      as [->|(-> & Hok & Hdev)]; [done|].
    rewrite handleStream_accepted by done. simpl. by rewrite lookup_app_l.
  - rewrite stream_frame_eq, broadcastToTail_heap. simpl.
    destruct (decide (l0 = l)) as [->|Hne].
    + rewrite list_lookup_alter_eq. by destruct (heap s !! l).
    + rewrite list_lookup_alter_ne by done. by destruct (heap s !! l).
  - done.
  - destruct (handleTail_outcome up r s) as [->|(l0 & _ & ->)]; [done|].
    simpl. destruct (decide (l0 = l)) as [->|Hne].
    + rewrite list_lookup_alter_eq. by destruct (heap s !! l).
    + by rewrite list_lookup_alter_ne.
  - destruct (decide (l0 = l)) as [->|Hne].
    + rewrite list_lookup_alter_eq. by destruct (heap s !! l).
    + by rewrite list_lookup_alter_ne.
Qed.

Lemma exec_no_connect d ev s :
  connect_of d ev s = None -> sessions (exec ev s) !! d = sessions s !! d.
Proof.
  destruct ev as [now up r|now accept l0 message|c0|up r|l0 c0]; simpl;
    intros Hnone; try done.
  - destruct (handleStream_outcome now up r s)
      as [->|(-> & Hok & Hdev)]; [done|].
    rewrite handleStream_accepted in Hnone |- * by done. simpl in *.
    destruct (String.eqb_spec (Get (query r) "device") d); [done|].
    by rewrite lookup_insert_ne.
  - by destruct (stream_frame_sessions now accept l0 message s) as [-> _].
  - by destruct (handleTail_outcome up r s) as [->|(l0 & _ & ->)].
Qed.

Lemma exec_connect d ev s l c :
  connect_of d ev s = Some (l, c) ->
  registered d (exec ev s) l c /\
  (forall l0 c0, registered d s l0 c0 -> is_closed c0 (conns (exec ev s))).
Proof.
  destruct ev as [now up r|now accept l0 message|c0|up r|l0 c0]; simpl;
    intros Hsome; try done.
  destruct (handleStream_outcome now up r s) as [Hno|(-> & Hok & Hdev)].
  { unfold handleStream in Hsome, Hno.
    destruct (negb (checkSecret s r)); [done|].
    destruct (String.eqb (Get (query r) "device") ""); [done|].
    destruct (negb up); [done|]. simpl in Hno.
    apply (f_equal (fun s => length (heap s))) in Hno.
    simpl in Hno. rewrite length_app in Hno. simpl in Hno. lia. }
  rewrite handleStream_accepted in Hsome |- * by done. simpl in *.
  destruct (String.eqb_spec (Get (query r) "device") d) as [Hd|]; [|done].
  injection Hsome as <- <-. rewrite Hd. split.
  - split; [apply lookup_insert_eq|]. split.
    + simpl. by rewrite list_lookup_middle.
    + simpl. rewrite length_evict, length_app. simpl. lia.
  - intros l0 c0 (Hreg & Hconn & Hlt).
    unfold lookup_session. rewrite Hreg.
    destruct (heap s !! l0) as [old|]; [|done].
    simpl in Hconn. injection Hconn as Hconn. simpl. rewrite Hconn.
    apply Close_is_closed. rewrite length_app. simpl. lia.
Qed.

Lemma exec_registered d ev s l c :
  connect_of d ev s = None ->
  registered d s l c -> registered d (exec ev s) l c.
Proof.
  intros Hnone (Hreg & Hconn & Hlt). split; [|split].
  - by rewrite exec_no_connect.
  - rewrite exec_conn_field; [done|].
    apply lookup_lt_is_Some. destruct (heap s !! l); [eauto|done].
  - pose proof (exec_length_conns ev s). lia.
Qed.

Lemma run_registered d tr : forall s l c,
  connects_of d tr s = [] ->
  registered d s l c -> registered d (run tr s) l c.
Proof.
  induction tr as [|ev tr IH]; intros s l c Hnone Hreg; [done|].
  rewrite run_cons. simpl in Hnone.
  destruct (connect_of d ev s) as [lc|] eqn:Hev; [done|].
  apply IH; [done|]. by apply exec_registered.
Qed.

Lemma snoc_cases {A} (x y : A) (l k : list A) :
  x :: l = k ++ [y] ->
  (l = [] /\ k = [] /\ x = y) \/ (exists k', k = x :: k' /\ l = k' ++ [y]).
Proof.
  destruct k as [|z k]; simpl; intros [= -> Hl].
  - left. by subst.
  - right. exists k. by subst.
Qed.

(** From a state in which [d] is registered: after a run, the registry
    maps [d] to the session of the last connect of [d] in the run, and
    the producer handles of the session registered at the start and of
    the sessions the earlier connects created are closed. *)
Lemma run_connects_registered d tr : forall s l c created l' c',
  registered d s l c ->
  connects_of d tr s = created ++ [(l', c')] ->
  registered d (run tr s) l' c' /\
  is_closed c (conns (run tr s)) /\
  (forall l0 c0, (l0, c0) ∈ created -> is_closed c0 (conns (run tr s))).
Proof.
  induction tr as [|ev tr IH]; intros s l c created l' c' Hreg Hcs.
  { by destruct created. }
  rewrite run_cons. simpl in Hcs.
  destruct (connect_of d ev s) as [[l1 c1]|] eqn:Hev.
  - destruct (exec_connect d ev s l1 c1 Hev) as [Hreg1 Hevict].
    pose proof (Hevict l c Hreg) as Hclosed.
    apply snoc_cases in Hcs as [(Hnil & -> & [= <- <-])|(k' & -> & Hrest)].
    + split; [by apply run_registered|].
      split; [by apply run_keeps_closed|].
      intros l0 c0 Hin. by apply elem_of_nil in Hin.
    + destruct (IH _ _ _ _ _ _ Hreg1 Hrest) as (Hreg' & Hc1 & Hk').
      split; [done|]. split; [by apply run_keeps_closed|].
      intros l0 c0 Hin. apply elem_of_cons in Hin as [[= -> ->]|Hin];
        [done|by apply (Hk' l0)].
  - apply (IH _ l c); [by apply exec_registered|done].
Qed.

(** The same from any state, among any other events: after a run, the
    registry maps [d] to the session of the last connect of [d] in the
    run, and the producer handles of the sessions the earlier connects
    of [d] created are closed. *)
Lemma run_last_connect_wins d tr : forall s created l c,
  connects_of d tr s = created ++ [(l, c)] ->
  registered d (run tr s) l c /\
  (forall l0 c0, (l0, c0) ∈ created -> is_closed c0 (conns (run tr s))).
Proof.
  induction tr as [|ev tr IH]; intros s created l c Hcs.
  { by destruct created. }
  rewrite run_cons. simpl in Hcs.
  destruct (connect_of d ev s) as [[l1 c1]|] eqn:Hev; [|by apply IH].
  destruct (exec_connect d ev s l1 c1 Hev) as [Hreg1 _].
  apply snoc_cases in Hcs as [(Hnil & -> & [= <- <-])|(k' & -> & Hrest)].
  - split; [by apply run_registered|].
    intros l0 c0 Hin. by apply elem_of_nil in Hin.
  - destruct (run_connects_registered d tr _ _ _ _ _ _ Hreg1 Hrest)
      as (Hreg' & Hc1 & Hk').
    split; [done|].
    intros l0 c0 Hin. apply elem_of_cons in Hin as [[= -> ->]|Hin];
      [done|by apply (Hk' l0)].
Qed.

End Interleaved.

(** ** Dead consumers *)

Lemma delivers_true accept cs c k :
  cs !! c = Some k ->
  delivers accept cs c <-> accept c = true /\ closed k = false.
Proof.
  intros Hk. unfold delivers. rewrite Hk. simpl.
  rewrite andb_True, bool_decide_spec. split.
  - intros [Ha Hopen]. split; [by destruct (accept c)|congruence].
  - intros [-> ->]. by split.
Qed.

Section Fanout.
Context {go : GoLib}.

(** C5: one pass of the broadcast over the consumers of a session, in a
    state the server reaches.  A consumer whose write is delivered has
    received the entry and stays attached, whatever happens to the
    others.  A consumer whose write times out or returns an error is at
    the end of the pass attached to no session and closed, it has been
    written to once and has received nothing; whatever the server does
    afterwards, it stays detached and closed and is never written to
    again. *)
Theorem broadcastToTail_prunes_dead k0 tr0 accept l entry c :
  let s := run tr0 (NewServer k0) in
  let s' := broadcastToTail accept l entry s in
  c ∈ tails_of s l ->
  exists k,
    conns s !! c = Some k /\
    (delivers accept (conns s) c ->
       c ∈ tails_of s' l /\
       conns s' !! c =
         Some {| closed := false;
                 inbox := inbox k ++ [json_Marshal (LogEntry_json entry)];
                 writes := S (writes k) |}) /\
    (~ delivers accept (conns s) c ->
       detached c s' /\
       conns s' !! c =
         Some {| closed := true; inbox := inbox k; writes := S (writes k) |} /\
       forall tr,
         detached c (run tr s') /\
         is_closed c (conns (run tr s')) /\
         writes <$> conns (run tr s') !! c = Some (S (writes k)) /\
         inbox <$> conns (run tr s') !! c = Some (inbox k)).
Proof.
  intros s s' Hc.
  pose proof (consumers_wf_reachable k0 tr0) as Hwf. fold s in Hwf.
  destruct Hwf as (Hnd & Hlt & Hone).
  destruct (lookup_lt_is_Some_2 (conns s) c) as [k Hk]; [by apply (Hlt l)|].
  exists k. split; [done|]. split.
  - intros Hd. split.
    + unfold s'. rewrite broadcastToTail_tails, decide_True by done.
      by rewrite list_elem_of_filter.
    + by apply broadcastToTail_conn_delivered.
  - intros Hd.
    assert (Hdet : detached c s').
    { intros l' Hin. unfold s' in Hin. rewrite broadcastToTail_tails in Hin.
      case_decide as Hl.
      - subst l'. apply list_elem_of_filter in Hin as [Hin _]. by apply Hd.
      - apply Hl. by apply (Hone l' l c). }
    assert (Hdead : conns s' !! c =
      Some {| closed := true; inbox := inbox k; writes := S (writes k) |})
      by by apply broadcastToTail_conn_dead.
    split; [done|]. split; [done|].
    intros tr.
    destruct (run_detached tr c s') as (Hdet' & Hw & Hi); [|done|].
    { unfold s'. rewrite broadcastToTail_length_conns. by apply (Hlt l). }
    split; [done|]. split.
    + apply run_keeps_closed. unfold is_closed. by rewrite Hdead.
    + rewrite Hw, Hi, Hdead. done.
Qed.

End Fanout.

Lemma broadcastToTail_prunes_dead_witness :
  let go := Fragment.fragment in
  let s := run two_tails (NewServer "s3cret") in
  let entry := {| Timestamp := seconds 1000; Message := "boot" |} in
  let s' := broadcastToTail (fun c => Nat.eqb c 1) 0 entry s in
  conns s' !! 1 =
    Some {| closed := false;
            inbox := [json_Marshal (LogEntry_json entry)];
            writes := 1 |} /\
  conns s' !! 2 = Some {| closed := true; inbox := []; writes := 1 |} /\
  writes <$>
    conns (run [EvFrame (seconds 1001) (fun _ => true) 0 "again"] s') !! 2
  = Some 1.
Proof.
  intros go s entry s'.
  destruct (broadcastToTail_prunes_dead (go := go) "s3cret" two_tails
              (fun c => Nat.eqb c 1) 0 entry 1)
    as (k1 & Hk1 & Hlive & _); [vm_compute; left|].
  destruct (broadcastToTail_prunes_dead (go := go) "s3cret" two_tails
              (fun c => Nat.eqb c 1) 0 entry 2)
    as (k2 & Hk2 & _ & Hdead); [vm_compute; right; left|].
  vm_compute in Hk1. injection Hk1 as <-.
  vm_compute in Hk2. injection Hk2 as <-.
  destruct Hlive as [_ Hlive]; [vm_compute; exact I|].
  destruct Hdead as (_ & Hdead & Hlater); [vm_compute; tauto|].
  split; [exact Hlive|]. split; [exact Hdead|].
  by destruct (Hlater [EvFrame (seconds 1001) (fun _ => true) 0 "again"])
    as (_ & _ & Hw & _).
Defined.

(** ** Attach-after *)

Lemma frames_of_frames_on l fs : frames_of l (frames_on l fs) = fs.
Proof.
  induction fs as [|f fs IH]; [done|].
  destruct f as [[now accept] message]. simpl.
  rewrite Nat.eqb_refl. f_equal. exact IH.
Qed.

Lemma frame_on_or_other ev l :
  (exists now accept message, ev = EvFrame now accept l message) \/
  (forall now accept message, ev <> EvFrame now accept l message).
Proof.
  destruct ev as [| now accept l0 message | | |]; try (by right).
  destruct (decide (l0 = l)) as [->|Hne].
  - left. eauto.
  - right. intros now' accept' message' [= _ _ Hl _]. done.
Qed.

Section AttachAfter.
Context {go : GoLib}.

(** Whatever the server does, a consumer of a session is afterwards a
    consumer of the same session or detached. *)
Lemma exec_attached_or_detached ev s l c :
  consumers_wf s -> c ∈ tails_of s l ->
  c ∈ tails_of (exec ev s) l \/ detached c (exec ev s).
Proof.
  intros (Hnd & Hlt & Hone) Hc.
  destruct (decide (c ∈ tails_of (exec ev s) l)) as [Hin|Hout]; [by left|].
  right. intros l' Hin.
  destruct (decide (l' = l)) as [->|Hne]; [done|].
  apply exec_tails in Hin as [Hin| ->].
  - apply Hne. by apply (Hone l' l c).
  - apply Hlt in Hc. lia.
Qed.

(** Only a frame of its session changes what a consumer has
    received. *)
Lemma exec_inbox_other ev s l c :
  consumers_wf s -> c ∈ tails_of s l ->
  (forall now accept message, ev <> EvFrame now accept l message) ->
  inbox <$> conns (exec ev s) !! c = inbox <$> conns s !! c.
Proof.
  intros (Hnd & Hlt & Hone) Hc Hev.
  assert (Hlen : c < length (conns s)) by by apply (Hlt l).
  destruct ev as [now up r|now accept l0 message|c0|up r|l0 c0]; simpl.
  - destruct (handleStream_outcome now up r s)
      as [->|(-> & Hok & Hdev)]; [done|].
    rewrite handleStream_accepted by done. simpl.
    rewrite evict_inbox. by rewrite lookup_app_l.
  - rewrite stream_frame_conn_other; [done|].
    intros Hin. apply (Hev now accept message).
    by rewrite (Hone l0 l c).
  - by rewrite Close_inbox.
  - destruct (handleTail_outcome up r s) as [->|(l0 & _ & ->)]; [done|].
    simpl. by rewrite lookup_app_l.
  - by rewrite Close_inbox.
Qed.

(** What a consumer of a session has received after a run is what it
    had received before, followed by frames of the session in the run,
    in their order, up to some point. *)
Lemma run_reaches_consumer l c post : forall s k,
  consumers_wf s -> c < length (conns s) -> conns s !! c = Some k ->
  c ∈ tails_of s l \/ detached c s ->
  exists n, inbox <$> conns (run post s) !! c =
            Some (inbox k ++ take n (forwarded <$> frames_of l post)).
Proof.
  induction post as [|ev post IH]; intros s k Hwf Hlen Hk Hatt.
  { exists 0. simpl. rewrite Hk. simpl. by rewrite app_nil_r. }
  destruct Hatt as [Hc|Hdet]; cycle 1.
  { exists 0. destruct (run_detached (ev :: post) c s) as (_ & _ & ->);
      [done..|]. rewrite Hk. simpl. by rewrite app_nil_r. }
  rewrite run_cons.
  assert (Hwf1 : consumers_wf (exec ev s)) by by apply consumers_wf_exec.
  assert (Hlen1 : c < length (conns (exec ev s)))
    by (pose proof (exec_length_conns ev s); lia).
  pose proof (exec_attached_or_detached ev s l c Hwf Hc) as Hatt1.
  pose proof Hwf as (Hnd & Hlt & Hone).
  destruct (frame_on_or_other ev l)
    as [(now & accept & message & ->)|Hev].
  - simpl. rewrite Nat.eqb_refl. rewrite fmap_cons.
    destruct (decide (delivers accept (conns s) c)) as [Hd|Hd].
    + assert (Hk1 : conns (stream_frame now accept l message s) !! c =
        Some {| closed := false;
                inbox := inbox k ++ [forwarded (now, accept, message)];
                writes := S (writes k) |})
        by by apply stream_frame_conn_delivered.
      destruct (IH _ _ Hwf1 Hlen1 Hk1 Hatt1) as [n Hn].
      exists (S n). simpl in Hn |- *. rewrite Hn. by rewrite <- app_assoc.
    + assert (Hk1 : conns (stream_frame now accept l message s) !! c =
        Some {| closed := true; inbox := inbox k; writes := S (writes k) |})
        by by apply stream_frame_conn_dead.
      assert (Hdet : detached c (stream_frame now accept l message s)).
      { destruct Hatt1 as [Hin|Hdet]; [|done]. simpl in Hin.
        rewrite stream_frame_tails, decide_True in Hin by done.
        apply list_elem_of_filter in Hin as [Hin _]. by destruct Hd. }
      exists 0.
      destruct (run_detached post c (stream_frame now accept l message s))
        as (_ & _ & ->); [done..|].
      rewrite Hk1. simpl. by rewrite app_nil_r.
  - pose proof (exec_inbox_other ev s l c Hwf Hc Hev) as Hinbox.
    rewrite Hk in Hinbox. simpl in Hinbox.
    destruct (conns (exec ev s) !! c) as [k1|] eqn:Hk1; [|done].
    injection Hinbox as Hinbox.
    destruct (IH _ k1 Hwf1 Hlen1 Hk1 Hatt1) as [n Hn].
    exists n. rewrite Hn, Hinbox. do 3 f_equal.
    destruct ev as [| now accept l0 message | | |]; try done.
    simpl. destruct (Nat.eqb_spec l0 l) as [->|_]; [|done].
    by destruct (Hev now accept message).
Qed.

(** An open consumer of a session that takes every write receives all
    the frames of the session. *)
Lemma frames_reach_consumer l c fs : forall s k,
  consumers_wf s -> c ∈ tails_of s l ->
  conns s !! c = Some k -> closed k = false ->
  Forall (fun f : Frame => f.1.2 c = true) fs ->
  inbox <$> conns (run (frames_on l fs) s) !! c =
    Some (inbox k ++ (forwarded <$> fs)).
Proof.
  induction fs as [|f fs IH]; intros s k Hwf Hc Hk Hopen Hacc.
  { simpl. rewrite Hk. simpl. by rewrite app_nil_r. }
  destruct f as [[now accept] message].
  change (frames_on l ((now, accept, message) :: fs))
    with (EvFrame now accept l message :: frames_on l fs).
  rewrite run_cons. cbn [exec]. rewrite fmap_cons.
  apply Forall_cons in Hacc as [Hacc0 Hacc]. simpl in Hacc0.
  pose proof Hwf as (Hnd & Hlt & Hone).
  assert (Hd : delivers accept (conns s) c)
    by by apply (delivers_true accept (conns s) c k).
  set (s1 := stream_frame now accept l message s).
  assert (Hwf1 : consumers_wf s1)
    by apply (consumers_wf_exec (EvFrame now accept l message) s Hwf).
  assert (Hk1 : conns s1 !! c =
    Some {| closed := false;
            inbox := inbox k ++ [forwarded (now, accept, message)];
            writes := S (writes k) |})
    by by apply stream_frame_conn_delivered.
  assert (Hc1 : c ∈ tails_of s1 l).
  { unfold s1. rewrite stream_frame_tails, decide_True by done.
    by rewrite list_elem_of_filter. }
  rewrite (IH s1 _ Hwf1 Hc1 Hk1 eq_refl Hacc). simpl.
  by rewrite <- app_assoc.
Qed.

End AttachAfter.

(** * Further properties of the server *)

(** ** The shape of a step *)

Section Steps.
Context {go : GoLib}.

(** An event is a producer connect that succeeds, or it leaves the
    registry, the number of sessions and the secret as they are. *)
Lemma exec_cases ev s :
  (exists now r,
     ev = EvStream now true r /\
     Get (query r) "secret" = secret s /\
     Get (query r) "device" <> "" /\
     exec ev s =
       {| sessions := <[Get (query r) "device" := length (heap s)]> (sessions s);
          heap := heap s ++ [new_session now r (length (conns s))];
          conns :=
            evict (lookup_session s (Get (query r) "device"))
              (conns s ++ [{| closed := false; inbox := []; writes := 0 |}]);
          secret := secret s |}) \/
  (sessions (exec ev s) = sessions s /\
   length (heap (exec ev s)) = length (heap s) /\
   secret (exec ev s) = secret s).
Proof.
  destruct ev as [now up r|now accept l0 message|c0|up r|l0 c0]; simpl.
  - destruct (handleStream_outcome now up r s)
      as [->|(-> & Hok & Hdev)]; [by right|].
    left. exists now, r. rewrite handleStream_accepted by done. done.
  - right. destruct (stream_frame_sessions now accept l0 message s) as [-> ->].
    by rewrite stream_frame_length_heap.
  - by right.
  - right. destruct (handleTail_outcome up r s) as [->|(l0 & _ & ->)]; [done|].
    simpl. by rewrite length_alter.
  - right. by rewrite length_alter.
Qed.

Lemma same_meta_refl a : same_meta a a.
Proof. by repeat split. Qed.

Lemma same_meta_trans a b c : same_meta a b -> same_meta b c -> same_meta a c.
Proof.
  intros (? & ? & ? & ? & ? & ?) (? & ? & ? & ? & ? & ?).
  repeat split; congruence.
Qed.

(** What an event does to a session that exists: its identity is kept,
    and its logs are kept or, by a frame of its producer, extended at
    the end by the entry of the frame. *)
Lemma exec_session ev s l session :
  heap s !! l = Some session ->
  exists session',
    heap (exec ev s) !! l = Some session' /\
    same_meta session session' /\
    ((Logs session' = Logs session /\ LogCount session' = LogCount session) \/
     (exists now accept message,
        ev = EvFrame now accept l message /\
        Logs session' = Logs session ++ [parse_entry now message] /\
        LogCount session' = length (Logs session'))).
Proof.
  intros Hl.
  destruct ev as [now up r|now accept l0 message|c0|up r|l0 c0]; simpl.
  - exists session. split; [|split; [apply same_meta_refl|by left]].
    destruct (handleStream_outcome now up r s)
      as [->|(-> & Hok & Hdev)]; [done|].
    rewrite handleStream_accepted by done. simpl.
    by apply lookup_app_l_Some.
  - rewrite stream_frame_eq, broadcastToTail_heap. simpl.
    destruct (decide (l0 = l)) as [->|Hne].
    + rewrite list_lookup_alter_eq, Hl. simpl. eexists. split; [done|].
      split; [by repeat split|]. right. exists now, accept, message. done.
    + rewrite list_lookup_alter_ne, Hl by done. simpl. eexists.
      split; [done|]. split; [by repeat split|by left].
  - exists session. split; [done|]. split; [apply same_meta_refl|by left].
  - destruct (handleTail_outcome up r s) as [->|(l0 & _ & ->)].
    { exists session. split; [done|]. split; [apply same_meta_refl|by left]. }
    simpl. destruct (decide (l0 = l)) as [->|Hne].
    + rewrite list_lookup_alter_eq, Hl. simpl. eexists. split; [done|].
      split; [by repeat split|by left].
    + rewrite list_lookup_alter_ne, Hl by done.
      exists session. split; [done|]. split; [apply same_meta_refl|by left].
  - destruct (decide (l0 = l)) as [->|Hne].
    + rewrite list_lookup_alter_eq, Hl. simpl. eexists. split; [done|].
      split; [by repeat split|by left].
    + rewrite list_lookup_alter_ne, Hl by done.
      exists session. split; [done|]. split; [apply same_meta_refl|by left].
Qed.

(** A session that an event creates is the session of a producer
    connect that succeeds, and the registry maps its device to it. *)
Lemma exec_heap_new ev s l session' :
  heap s !! l = None ->
  heap (exec ev s) !! l = Some session' ->
  exists now r,
    ev = EvStream now true r /\
    l = length (heap s) /\
    session' = new_session now r (length (conns s)) /\
    sessions (exec ev s) !! DeviceHash session' = Some l /\
    length (conns (exec ev s)) = S (length (conns s)).
Proof.
  intros Hnone Hsome.
  destruct (exec_cases ev s) as [(now & r & -> & Hok & Hdev & Hexec)|
                                 (_ & Hlen & _)].
  - rewrite Hexec in Hsome |- *. simpl in Hsome |- *.
    apply lookup_ge_None in Hnone.
    assert (l = length (heap s)) as ->.
    { apply lookup_lt_Some in Hsome. rewrite length_app in Hsome.
      simpl in Hsome. lia. }
    rewrite list_lookup_middle in Hsome by done. injection Hsome as <-.
    exists now, r. repeat split; try done.
    + simpl. apply lookup_insert_eq.
    + rewrite length_evict, length_app. simpl. lia.
  - apply lookup_ge_None in Hnone. apply lookup_lt_Some in Hsome. lia.
Qed.

Lemma exec_secret ev s : secret (exec ev s) = secret s.
Proof.
  destruct (exec_cases ev s) as [(now & r & -> & Hok & Hdev & Hexec)|
                                 (_ & _ & Hsec)]; [|done].
  by rewrite Hexec.
Qed.

Lemma run_secret tr : forall s, secret (run tr s) = secret s.
Proof.
  induction tr as [|ev tr IH]; intros s; [done|].
  by rewrite run_cons, IH, exec_secret.
Qed.

(** ** Invariants of the sessions *)

Lemma logcount_ok_exec ev s : logcount_ok s -> logcount_ok (exec ev s).
Proof.
  intros Hinv l session' Hl'.
  destruct (heap s !! l) as [session|] eqn:Hl.
  - destruct (exec_session ev s l session Hl)
      as (session'' & Hl'' & _ & [[Hlogs Hcount]|(? & ? & ? & _ & _ & Hcount)]);
      rewrite Hl' in Hl''; injection Hl'' as <-; [|done].
    rewrite Hlogs, Hcount. by apply (Hinv l).
  - destruct (exec_heap_new ev s l session' Hl Hl')
      as (now & r & _ & _ & -> & _). done.
Qed.

Lemma registry_named_exec ev s : registry_named s -> registry_named (exec ev s).
Proof.
  intros Hinv d l Hd.
  destruct (exec_cases ev s) as [(now & r & -> & Hok & Hdev & Hexec)|
                                 (Hsess & _ & _)].
  - rewrite Hexec in Hd |- *. simpl in Hd |- *.
    destruct (decide (Get (query r) "device" = d)) as [<-|Hne].
    + rewrite lookup_insert_eq in Hd. injection Hd as <-.
      eexists. split; [by apply list_lookup_middle|done].
    + rewrite lookup_insert_ne in Hd by done.
      destruct (Hinv d l Hd) as (session & Hl & Hname).
      exists session. split; [by apply lookup_app_l_Some|done].
  - rewrite Hsess in Hd. destruct (Hinv d l Hd) as (session & Hl & Hname).
    destruct (exec_session ev s l session Hl)
      as (session' & Hl' & (Hdev & _) & _).
    exists session'. split; [done|congruence].
Qed.

Lemma producers_wf_exec ev s : producers_wf s -> producers_wf (exec ev s).
Proof.
  intros Hinv l session' Hl'.
  pose proof (exec_length_conns ev s) as Hlen.
  destruct (heap s !! l) as [session|] eqn:Hl.
  - destruct (Hinv l session Hl) as (c & Hconn & Hlt & Hstate).
    destruct (exec_session ev s l session Hl)
      as (session'' & Hl'' & (Hdev & _ & _ & _ & _ & Hc) & _).
    rewrite Hl' in Hl''. injection Hl'' as <-.
    exists c. split; [congruence|]. split; [lia|].
    destruct Hstate as [Hreg|Hclosed]; [|right; by apply exec_keeps_closed].
    rewrite <- Hdev.
    destruct (exec_cases ev s) as [(now & r & -> & Hok & Hd & Hexec)|
                                   (Hsess & _ & _)].
    + rewrite Hexec. simpl.
      destruct (decide (Get (query r) "device" = DeviceHash session))
        as [Heq|Hne].
      * right. unfold lookup_session. rewrite Heq, Hreg, Hl. simpl.
        rewrite Hconn. apply Close_is_closed. rewrite length_app. simpl. lia.
      * left. by rewrite lookup_insert_ne.
    + left. by rewrite Hsess.
  - destruct (exec_heap_new ev s l session' Hl Hl')
      as (now & r & _ & _ & Hnew & Hreg & Hlen').
    exists (length (conns s)). split; [by rewrite Hnew|].
    split; [lia|by left].
Qed.

Lemma logcount_ok_run tr : forall s, logcount_ok s -> logcount_ok (run tr s).
Proof.
  induction tr as [|ev tr IH]; intros s Hinv; [done|].
  rewrite run_cons. apply IH. by apply logcount_ok_exec.
Qed.

Lemma registry_named_run tr : forall s,
  registry_named s -> registry_named (run tr s).
Proof.
  induction tr as [|ev tr IH]; intros s Hinv; [done|].
  rewrite run_cons. apply IH. by apply registry_named_exec.
Qed.

Lemma producers_wf_run tr : forall s, producers_wf s -> producers_wf (run tr s).
Proof.
  induction tr as [|ev tr IH]; intros s Hinv; [done|].
  rewrite run_cons. apply IH. by apply producers_wf_exec.
Qed.

Lemma heap_NewServer k l : heap (NewServer k) !! l = None.
Proof. by destruct l. Qed.

Lemma registry_named_reachable k tr : registry_named (run tr (NewServer k)).
Proof.
  apply registry_named_run. intros d l Hd. simpl in Hd.
  by rewrite lookup_empty in Hd.
Qed.

End Steps.

(** ** What the sessions keep *)

Section Kept.
Context {go : GoLib}.

(** X1: in every state the server reaches, the field [LogCount] of a
    session is the number of its stored entries. *)
Theorem reachable_LogCount k tr l session :
  heap (run tr (NewServer k)) !! l = Some session ->
  LogCount session = length (Logs session).
Proof.
  intros Hl. eapply (logcount_ok_run tr (NewServer k)); [|exact Hl].
  intros l0 session0 Hl0. by rewrite heap_NewServer in Hl0.
Qed.

(** X2: in every state the server reaches, a device of the registry
    resolves to a session, and that session carries the device as its
    [DeviceHash]: the registry holds no dangling pointer and no session
    under another device's key. *)
Theorem reachable_registry_resolves k tr d :
  is_Some (sessions (run tr (NewServer k)) !! d) ->
  exists session,
    lookup_session (run tr (NewServer k)) d = Some session /\
    DeviceHash session = d.
Proof.
  intros [l Hd].
  destruct (registry_named_reachable k tr d l Hd) as (session & Hl & Hname).
  exists session. split; [|done]. unfold lookup_session. by rewrite Hd.
Qed.

(** X3: at most one live producer per device.  In every state the
    server reaches, two sessions of the same device whose producer
    connections are both open are the same session, the one the
    registry returns. *)
Theorem reachable_one_live_producer k tr l1 l2 session1 session2 c1 c2 :
  let s := run tr (NewServer k) in
  heap s !! l1 = Some session1 -> heap s !! l2 = Some session2 ->
  DeviceHash session1 = DeviceHash session2 ->
  conn session1 = Some c1 -> conn session2 = Some c2 ->
  closed <$> conns s !! c1 = Some false ->
  closed <$> conns s !! c2 = Some false ->
  l1 = l2 /\ sessions s !! DeviceHash session1 = Some l1.
Proof.
  intros s Hl1 Hl2 Hdev Hc1 Hc2 Hopen1 Hopen2.
  assert (Hinv : producers_wf s).
  { apply producers_wf_run. intros l0 session0 Hl0.
    by rewrite heap_NewServer in Hl0. }
  destruct (Hinv l1 session1 Hl1) as (c1' & Hc1' & _ & [Hreg1|Hcl1]); cycle 1.
  { unfold is_closed in Hcl1. congruence. }
  destruct (Hinv l2 session2 Hl2) as (c2' & Hc2' & _ & [Hreg2|Hcl2]); cycle 1.
  { unfold is_closed in Hcl2. congruence. }
  split; [|done]. rewrite Hdev in Hreg1. congruence.
Qed.

Lemma frames_of_cons_frame now accept l message tr :
  frames_of l (EvFrame now accept l message :: tr) =
    (now, accept, message) :: frames_of l tr.
Proof. simpl. by rewrite Nat.eqb_refl. Qed.

Lemma frames_of_cons_other ev l tr :
  (forall now accept message, ev <> EvFrame now accept l message) ->
  frames_of l (ev :: tr) = frames_of l tr.
Proof.
  intros Hev. destruct ev as [| now accept l0 message | | |]; try done.
  simpl. destruct (Nat.eqb_spec l0 l) as [->|_]; [|done].
  by destruct (Hev now accept message).
Qed.

(** What a run does to a session that exists: its identity is kept and
    its logs are extended by the entries of its frames in the run. *)
Lemma run_session_logs tr : forall s l session,
  heap s !! l = Some session ->
  exists session',
    heap (run tr s) !! l = Some session' /\
    same_meta session session' /\
    Logs session' = Logs session ++ (entry_of <$> frames_of l tr).
Proof.
  induction tr as [|ev tr IH]; intros s l session Hl.
  { exists session. rewrite app_nil_r. split; [done|].
    split; [apply same_meta_refl|done]. }
  rewrite run_cons.
  destruct (exec_session ev s l session Hl)
    as (session1 & Hl1 & Hmeta1 &
        [[Hlogs _]|(now & accept & message & -> & Hlogs & _)]).
  - destruct (IH _ _ _ Hl1) as (session' & Hl' & Hmeta' & Hlogs').
    exists session'. split; [done|]. split; [by eapply same_meta_trans|].
    rewrite Hlogs', Hlogs.
    destruct (frame_on_or_other ev l) as [(now & accept & message & ->)|Hev].
    + exfalso. simpl in Hl1. rewrite (stream_frame_heap _ _ _ _ _ session) in Hl1
        by done.
      injection Hl1 as <-. simpl in Hlogs.
      apply (f_equal length) in Hlogs. rewrite length_app in Hlogs.
      simpl in Hlogs. lia.
    + by rewrite frames_of_cons_other.
  - destruct (IH _ _ _ Hl1) as (session' & Hl' & Hmeta' & Hlogs').
    exists session'. split; [done|]. split; [by eapply same_meta_trans|].
    rewrite Hlogs', Hlogs, frames_of_cons_frame, fmap_cons.
    by rewrite <- app_assoc.
Qed.

(** X4: the logs of a session are append-only and are exactly what its
    producer sent.  Whatever the server does, a session that exists
    keeps its device, name, addresses, time of connection and producer
    handle, and its logs afterwards are its logs before followed by the
    entries of the frames that arrived on it, in their order of arrival:
    no entry is dropped, changed or reordered. *)
Theorem run_logs_are_frames tr s l session :
  heap s !! l = Some session ->
  exists session',
    heap (run tr s) !! l = Some session' /\
    same_meta session session' /\
    Logs session' = Logs session ++ (entry_of <$> frames_of l tr).
Proof. apply run_session_logs. Qed.

Lemma parse_entry_nonzero now message :
  now <> 0%Z -> Timestamp (parse_entry now message) <> 0%Z.
Proof.
  intros Hnow. unfold parse_entry.
  destruct (json_Unmarshal message) as [parsed|e]; simpl.
  - unfold IsZero. by destruct (Z.eqb_spec (Timestamp parsed) 0).
  - unfold IsZero. by destruct (Z.eqb_spec now 0).
Qed.

(** X5: when no frame arrives at the zero instant, no stored entry
    carries the zero timestamp, whatever the producers sent: a frame
    without a timestamp, or with the zero one, is stamped with its time
    of arrival. *)
Theorem reachable_entries_stamped k tr l session entry :
  clock_ok tr ->
  heap (run tr (NewServer k)) !! l = Some session ->
  entry ∈ Logs session ->
  Timestamp entry <> 0%Z.
Proof.
  revert l session entry.
  assert (Hrun : forall tr s,
    clock_ok tr ->
    (forall l session entry, heap s !! l = Some session ->
       entry ∈ Logs session -> Timestamp entry <> 0%Z) ->
    forall l session entry, heap (run tr s) !! l = Some session ->
      entry ∈ Logs session -> Timestamp entry <> 0%Z).
  { clear tr. induction tr as [|ev tr IH]; intros s Hclock Hinv; [done|].
    apply Forall_cons in Hclock as [Hev Hclock].
    rewrite run_cons. apply IH; [done|].
    intros l session' entry Hl' Hentry.
    destruct (heap s !! l) as [session|] eqn:Hl.
    - destruct (exec_session ev s l session Hl)
        as (session'' & Hl'' & _ &
            [[Hlogs _]|(now & accept & message & -> & Hlogs & _)]);
        rewrite Hl' in Hl''; injection Hl'' as <-.
      + rewrite Hlogs in Hentry. by apply (Hinv l session).
      + rewrite Hlogs in Hentry. apply elem_of_app in Hentry as [Hentry|Hentry].
        * by apply (Hinv l session).
        * apply list_elem_of_singleton in Hentry as ->.
          by apply parse_entry_nonzero.
    - destruct (exec_heap_new ev s l session' Hl Hl')
        as (now & r & _ & _ & -> & _).
      by apply elem_of_nil in Hentry. }
  intros l session entry Hclock. apply (Hrun tr (NewServer k) Hclock).
  intros l0 session0 entry0 Hl0. by rewrite heap_NewServer in Hl0.
Qed.

(** X6: the registry never forgets a device.  No event removes a key
    of the registry: a device that is registered stays registered
    whatever happens afterwards, also when its producer has gone, and
    the count of devices that the health check reports never
    decreases. *)
Theorem run_registry_grows tr : forall s,
  size (sessions s) <= size (sessions (run tr s)) /\
  (forall d, is_Some (sessions s !! d) ->
             is_Some (sessions (run tr s) !! d)).
Proof.
  induction tr as [|ev tr IH]; intros s; [done|].
  rewrite run_cons. destruct (IH (exec ev s)) as [Hsize Hkeys].
  destruct (exec_cases ev s) as [(now & r & -> & Hok & Hdev & Hexec)|
                                 (Hsess & _ & _)].
  - rewrite Hexec in Hsize, Hkeys |- *. simpl in Hsize, Hkeys. split.
    + rewrite map_size_insert in Hsize.
      destruct (sessions s !! Get (query r) "device"); simpl in Hsize; lia.
    + intros d Hd. apply Hkeys.
      destruct (decide (Get (query r) "device" = d)) as [->|Hne].
      * rewrite lookup_insert_eq. eauto.
      * by rewrite lookup_insert_ne.
  - rewrite Hsess in Hsize, Hkeys. done.
Qed.

End Kept.

Lemma reachable_LogCount_witness :
  LogCount one_entry_session = length (Logs one_entry_session).
Proof.
  apply (reachable_LogCount (go := Fragment.fragment) "s3cret" one_entry_run 0).
  vm_compute. reflexivity.
Defined.

Lemma reachable_registry_resolves_witness :
  exists session,
    lookup_session (run (go := Fragment.fragment) one_entry_run
                      (NewServer "s3cret")) "abc" = Some session /\
    DeviceHash session = "abc".
Proof.
  apply (reachable_registry_resolves (go := Fragment.fragment)).
  vm_compute. eauto.
Defined.

Lemma reachable_one_live_producer_witness :
  0 = 0 /\
  sessions (run (go := Fragment.fragment) one_entry_run (NewServer "s3cret"))
    !! "abc" = Some 0.
Proof.
  apply (reachable_one_live_producer (go := Fragment.fragment) "s3cret"
           one_entry_run 0 0 one_entry_session one_entry_session 0 0);
    vm_compute; reflexivity.
Defined.

Lemma run_logs_are_frames_witness :
  exists session',
    heap (run (go := Fragment.fragment)
            [EvFrame (seconds 1001) (fun _ => true) 0 "E1";
             EvTail true tail_abc;
             EvFrame (seconds 1002) (fun _ => true) 0 "E2"]
            connected_server) !! 0 = Some session' /\
    Logs session' =
      [{| Timestamp := seconds 1001; Message := "E1" |};
       {| Timestamp := seconds 1002; Message := "E2" |}].
Proof.
  destruct (run_logs_are_frames (go := Fragment.fragment)
              [EvFrame (seconds 1001) (fun _ => true) 0 "E1";
               EvTail true tail_abc;
               EvFrame (seconds 1002) (fun _ => true) 0 "E2"]
              connected_server 0
              {| DeviceHash := "abc"; Name := "phone"; IPv4 := ""; IPv6 := "";
                 Connected := seconds 900; Logs := []; LogCount := 0;
                 conn := Some 0; tailConns := [] |})
    as (session' & Hl & _ & Hlogs); [vm_compute; reflexivity|].
  exists session'. split; [exact Hl|]. rewrite Hlogs. vm_compute. reflexivity.
Defined.

Lemma reachable_entries_stamped_witness :
  Logs one_entry_session =
    [{| Timestamp := seconds 1000; Message := "hello raw" |}] /\
  Timestamp {| Timestamp := seconds 1000; Message := "hello raw" |} <> 0%Z.
Proof.
  split; [reflexivity|].
  apply (reachable_entries_stamped (go := Fragment.fragment) "s3cret"
           one_entry_run 0 one_entry_session).
  - repeat constructor. vm_compute. discriminate.
  - vm_compute. reflexivity.
  - left.
Defined.

Lemma run_registry_grows_witness :
  size (sessions connected_server)
  <= size (sessions (run (go := Fragment.fragment)
                       [EvStreamClosed 0] connected_server)) /\
  is_Some (sessions (run (go := Fragment.fragment)
                       [EvStreamClosed 0] connected_server) !! "abc").
Proof.
  destruct (run_registry_grows (go := Fragment.fragment)
              [EvStreamClosed 0] connected_server) as [Hsize Hkeys].
  split; [exact Hsize|]. apply Hkeys. vm_compute. eauto.
Defined.

(** ** The gateways of the other endpoints *)

(** X7: [handleTail] answers in the order of its checks and creates no
    state before they pass: a wrong secret is answered unauthorized, a
    path without a device bad-request, an unknown device not-found, and
    when the upgrade fails nothing is attached; in all four cases the
    server is left exactly as it was. *)
Theorem handleTail_rejects_without_state upgrade_ok r s :
  (Get (query r) "secret" <> secret s ->
   handleTail upgrade_ok r s =
     (Rejected (http_Error "Unauthorized" StatusUnauthorized), s)) /\
  (Get (query r) "secret" = secret s ->
   device_of_path "/tail/" (path r) = "" ->
   handleTail upgrade_ok r s =
     (Rejected (http_Error "Missing device hash in path" StatusBadRequest), s)) /\
  (Get (query r) "secret" = secret s ->
   device_of_path "/tail/" (path r) <> "" ->
   sessions s !! device_of_path "/tail/" (path r) = None ->
   handleTail upgrade_ok r s =
     (Rejected (http_Error "Device not found" StatusNotFound), s)) /\
  (Get (query r) "secret" = secret s ->
   device_of_path "/tail/" (path r) <> "" ->
   is_Some (sessions s !! device_of_path "/tail/" (path r)) ->
   handleTail false r s = (UpgradeFailed, s)).
Proof.
  unfold device_of_path. repeat split.
  - intros Hbad. apply checkSecret_false in Hbad.
    unfold handleTail. by rewrite Hbad.
  - intros Hok Hdev. apply checkSecret_true in Hok.
    unfold handleTail. by rewrite Hok, Hdev.
  - intros Hok Hdev Hnone. apply checkSecret_true in Hok.
    apply String.eqb_neq in Hdev.
    unfold handleTail. rewrite Hok. simpl. by rewrite Hdev, Hnone.
  - intros Hok Hdev [l Hl]. apply checkSecret_true in Hok.
    apply String.eqb_neq in Hdev.
    unfold handleTail. rewrite Hok. simpl. by rewrite Hdev, Hl.
Qed.

Lemma handleTail_rejects_without_state_witness :
  handleTail true {| path := "/tail/abc"; query := [("secret", "guess")] |}
    connected_server
  = (Rejected (http_Error "Unauthorized" StatusUnauthorized), connected_server) /\
  handleTail true {| path := "/tail/"; query := [("secret", "s3cret")] |}
    connected_server
  = (Rejected (http_Error "Missing device hash in path" StatusBadRequest),
     connected_server) /\
  handleTail true {| path := "/tail/xyz"; query := [("secret", "s3cret")] |}
    connected_server
  = (Rejected (http_Error "Device not found" StatusNotFound), connected_server) /\
  handleTail false tail_abc connected_server = (UpgradeFailed, connected_server).
Proof.
  split; [|split; [|split]].
  - destruct (handleTail_rejects_without_state true
                {| path := "/tail/abc"; query := [("secret", "guess")] |}
                connected_server) as (H & _).
    apply H. vm_compute. discriminate.
  - destruct (handleTail_rejects_without_state true
                {| path := "/tail/"; query := [("secret", "s3cret")] |}
                connected_server) as (_ & H & _).
    apply H; reflexivity.
  - destruct (handleTail_rejects_without_state true
                {| path := "/tail/xyz"; query := [("secret", "s3cret")] |}
                connected_server) as (_ & _ & H & _).
    apply H; [reflexivity | vm_compute; discriminate | vm_compute; reflexivity].
  - destruct (handleTail_rejects_without_state true tail_abc connected_server)
      as (_ & _ & _ & H).
    apply H; [reflexivity | vm_compute; discriminate | vm_compute; eauto].
Defined.

Section Gateways.
Context {go : GoLib}.

(** X8: [handleLogs] checks the secret, then the device of the path,
    then the registry, before it looks at the filters: a wrong secret is
    answered unauthorized, a path without a device bad-request and an
    unknown device not-found, whatever the [since], [regex] and [format]
    parameters are, valid or not. *)
Theorem handleLogs_checks_before_filters now s r :
  (Get (query r) "secret" <> secret s ->
   handleLogs now s r = http_Error "Unauthorized" StatusUnauthorized) /\
  (Get (query r) "secret" = secret s ->
   device_of_path "/logs/" (path r) = "" ->
   handleLogs now s r =
     http_Error "Missing device hash in path" StatusBadRequest) /\
  (Get (query r) "secret" = secret s ->
   device_of_path "/logs/" (path r) <> "" ->
   lookup_session s (device_of_path "/logs/" (path r)) = None ->
   handleLogs now s r = http_Error "Device not found" StatusNotFound).
Proof.
  unfold device_of_path. repeat split.
  - intros Hbad. apply checkSecret_false in Hbad.
    unfold handleLogs. by rewrite Hbad.
  - intros Hok Hdev. apply checkSecret_true in Hok.
    unfold handleLogs. by rewrite Hok, Hdev.
  - intros Hok Hdev Hnone. apply checkSecret_true in Hok.
    apply String.eqb_neq in Hdev.
    unfold handleLogs. rewrite Hok. simpl. by rewrite Hdev, Hnone.
Qed.

(** X9: a server that [main] starts has a secret that is not empty, and
    keeps it; so whatever the server has done since, a request without
    the secret parameter is answered unauthorized by the handlers of
    the producers, of the consumers, of the logs and of the device list,
    and the two handlers that can change the server leave it as it
    is. *)
Theorem main_server_requires_secret f s tr r now upgrade_ok order :
  main_server f = Ok s ->
  (forall kv, kv ∈ query r -> kv.1 <> "secret") ->
  let s' := run tr s in
  secret s' = flag_secret f /\ flag_secret f <> "" /\
  handleStream now upgrade_ok r s' =
    (Rejected (http_Error "Unauthorized" StatusUnauthorized), s') /\
  handleTail upgrade_ok r s' =
    (Rejected (http_Error "Unauthorized" StatusUnauthorized), s') /\
  handleLogs now s' r = http_Error "Unauthorized" StatusUnauthorized /\
  handleDevices order s' r = http_Error "Unauthorized" StatusUnauthorized.
Proof.
  intros Hmain Hq s'. unfold main_server in Hmain.
  destruct (String.eqb_spec (flag_secret f) "") as [|Hsecret]; [done|].
  destruct (_ && _); [done|]. injection Hmain as <-.
  assert (Hs' : secret s' = flag_secret f) by (unfold s'; by rewrite run_secret).
  assert (Hbad : checkSecret s' r = false).
  { apply checkSecret_false. rewrite (Get_absent _ _ Hq). congruence. }
  split; [done|]. split; [done|].
  unfold handleStream, handleTail, handleLogs, handleDevices.
  by rewrite Hbad.
Qed.

End Gateways.

Lemma handleLogs_checks_before_filters_witness :
  let go := Fragment.fragment in
  handleLogs (seconds 1200) one_entry_server
    {| path := "/logs/abc"; query := [("since", "5x"); ("regex", "(")] |}
  = http_Error "Unauthorized" StatusUnauthorized /\
  handleLogs (seconds 1200) one_entry_server
    {| path := "/logs/";
       query := [("secret", "s3cret"); ("since", "5x"); ("regex", "(")] |}
  = http_Error "Missing device hash in path" StatusBadRequest /\
  handleLogs (seconds 1200) one_entry_server
    {| path := "/logs/xyz";
       query := [("secret", "s3cret"); ("since", "5x"); ("regex", "(")] |}
  = http_Error "Device not found" StatusNotFound.
Proof.
  intros go. split; [|split].
  - destruct (handleLogs_checks_before_filters (go := go) (seconds 1200)
                one_entry_server
                {| path := "/logs/abc";
                   query := [("since", "5x"); ("regex", "(")] |}) as (H & _).
    apply H. vm_compute. discriminate.
  - destruct (handleLogs_checks_before_filters (go := go) (seconds 1200)
                one_entry_server
                {| path := "/logs/";
                   query := [("secret", "s3cret"); ("since", "5x");
                             ("regex", "(")] |}) as (_ & H & _).
    apply H; reflexivity.
  - destruct (handleLogs_checks_before_filters (go := go) (seconds 1200)
                one_entry_server
                {| path := "/logs/xyz";
                   query := [("secret", "s3cret"); ("since", "5x");
                             ("regex", "(")] |}) as (_ & _ & H).
    apply H; [reflexivity | vm_compute; discriminate | vm_compute; reflexivity].
Defined.

Lemma main_server_requires_secret_witness :
  let go := Fragment.fragment in
  let s' := run one_entry_run (NewServer "s3cret") in
  handleStream (seconds 1200) true (no_secret "/stream") s' =
    (Rejected (http_Error "Unauthorized" StatusUnauthorized), s') /\
  handleLogs (seconds 1200) s' (no_secret "/logs/abc") =
    http_Error "Unauthorized" StatusUnauthorized.
Proof.
  intros go s'.
  destruct (main_server_requires_secret (go := go) good_flags
              (NewServer "s3cret") one_entry_run (no_secret "/stream")
              (seconds 1200) true [])
    as (_ & _ & Hstream & _); [reflexivity | |].
  { intros kv Hkv. apply list_elem_of_singleton in Hkv. subst kv.
    vm_compute. discriminate. }
  destruct (main_server_requires_secret (go := go) good_flags
              (NewServer "s3cret") one_entry_run (no_secret "/logs/abc")
              (seconds 1200) true [])
    as (_ & _ & _ & _ & Hlogs & _); [reflexivity | |].
  { intros kv Hkv. apply list_elem_of_singleton in Hkv. subst kv.
    vm_compute. discriminate. }
  split; [exact Hstream | exact Hlogs].
Defined.

(** ** The device list *)

Section DeviceList.
Context {go : GoLib}.

(** X10: [handleDevices], with the secret, in any state the server
    reaches and whatever the order in which the map is visited: the
    answer is the encoding of one object per device of the registry, as
    many as the health check counts; the session the registry returns
    for a device is listed, and every listed session is the one the
    registry returns for its device. *)
Theorem handleDevices_lists_registry k tr order r :
  let s := run tr (NewServer k) in
  Get (query r) "secret" = secret s ->
  order ≡ₚ map_to_list (sessions s) ->
  handleDevices order s r =
    {| status := StatusOK;
       content_type := "application/json";
       body :=
         json_Marshal (JArray (device_json <$> listed_sessions order s))
         +:+ nl |} /\
  length (listed_sessions order s) = size (sessions s) /\
  (forall d session,
     lookup_session s d = Some session -> session ∈ listed_sessions order s) /\
  (forall session,
     session ∈ listed_sessions order s ->
     lookup_session s (DeviceHash session) = Some session).
Proof.
  intros s Hok Horder. apply checkSecret_true in Hok.
  pose proof (registry_named_reachable k tr) as Hnamed. fold s in Hnamed.
  split; [unfold handleDevices; by rewrite Hok|].
  assert (Hin : forall d l, (d, l) ∈ order <-> sessions s !! d = Some l).
  { intros d l. rewrite Horder. apply elem_of_map_to_list. }
  split; [|split].
  - rewrite <- length_map_to_list, <- Horder.
    assert (Hall : forall kv : string * nat,
              kv ∈ order -> is_Some (heap s !! kv.2)).
    { intros [d l] Hkv. apply Hin in Hkv. simpl.
      destruct (Hnamed d l Hkv) as (session & Hl & _). rewrite Hl. eauto. }
    unfold listed_sessions. clear Horder Hin.
    induction order as [|kv order IH]; [done|].
    simpl. destruct (Hall kv) as [session ->]; [left|]. simpl.
    f_equal. apply IH. intros kv' Hkv'. apply Hall. by right.
  - intros d session Hfound. unfold lookup_session in Hfound.
    destruct (sessions s !! d) as [l|] eqn:Hd; [|done].
    apply list_elem_of_omap. exists (d, l). split; [by apply Hin|done].
  - intros session Hlisted. apply list_elem_of_omap in Hlisted
      as ([d l] & Hkv & Hl). apply Hin in Hkv. simpl in Hl.
    destruct (Hnamed d l Hkv) as (session' & Hl' & Hname).
    rewrite Hl in Hl'. injection Hl' as <-.
    unfold lookup_session. by rewrite Hname, Hkv.
Qed.

End DeviceList.

Lemma handleDevices_lists_registry_witness :
  let go := Fragment.fragment in
  let s := run one_entry_run (NewServer "s3cret") in
  listed_sessions [("abc", 0)] s = [one_entry_session] /\
  length (listed_sessions [("abc", 0)] s) = size (sessions s).
Proof.
  intros go s.
  destruct (handleDevices_lists_registry (go := go) "s3cret" one_entry_run
              [("abc", 0)] (logs_abc []))
    as (_ & Hlen & _); [reflexivity | vm_compute; reflexivity |].
  split; [vm_compute; reflexivity | exact Hlen].
Defined.

(** ** The filters and the transcript *)

Lemma string_app_assoc (a b c : string) : (a +:+ b) +:+ c = a +:+ b +:+ c.
Proof.
  induction a as [|x a IH]; [done|].
  change (String x ((a +:+ b) +:+ c) = String x (a +:+ b +:+ c)).
  by rewrite IH.
Qed.

Section Transcript.
Context {go : GoLib}.

Lemma sinceFilter_kept now sinceStr d logs :
  (sinceStr = "" /\ d = None) \/
    (exists d', time_ParseDuration sinceStr = Ok d' /\ d = Some d') ->
  sinceFilter now sinceStr logs =
    Ok (filter (fun entry => kept_by now d None entry) logs).
Proof.
  intros [[-> ->]|(d' & Hd & ->)].
  - simpl. f_equal. symmetry. clear.
    induction logs as [|e logs IH]; [done|].
    rewrite filter_cons_True by done. by rewrite IH.
  - rewrite (sinceFilter_parsed _ _ d') by done. f_equal.
    apply list_filter_iff. intros entry. unfold kept_by.
    by rewrite andb_true_r.
Qed.

Lemma regexFilter_kept now regexPattern re logs :
  (regexPattern = "" /\ re = None) \/
    (exists re', regexPattern <> "" /\ regexp_Compile regexPattern = Ok re' /\
                 re = Some re') ->
  regexFilter regexPattern logs =
    Ok (filter (fun entry => kept_by now None re entry) logs).
Proof.
  intros [[-> ->]|(re' & Hne & Hre & ->)].
  - simpl. f_equal. symmetry. clear.
    induction logs as [|e logs IH]; [done|].
    rewrite filter_cons_True by done. by rewrite IH.
  - apply String.eqb_neq in Hne. unfold regexFilter. rewrite Hne, Hre. done.
Qed.

Lemma kept_by_both now d re entry :
  kept_by now d re entry <->
  kept_by now d None entry /\ kept_by now None re entry.
Proof.
  unfold kept_by. rewrite andb_true_r. simpl. apply andb_True.
Qed.

(** X11: the two filters of [handleLogs] compose by intersection.  For
    a request with the secret for a known device, whose [since] is
    absent or parses and whose [regex] is absent or compiles, the answer
    carries exactly the stored entries that are both after the cutoff
    and matched by the pattern, in their stored order (a filter that is
    absent keeps everything); and the two filters applied in the other
    order keep the same entries.  The cutoff is the one the handler
    computes, [time.Now().Add(-duration)] with the negation of an
    [int64]: it is [now - d] for every duration [d] but the least one,
    for which it is [now - 2^63]. *)
Theorem handleLogs_filters_intersect now s r session d re :
  Get (query r) "secret" = secret s ->
  device_of_path "/logs/" (path r) <> "" ->
  lookup_session s (device_of_path "/logs/" (path r)) = Some session ->
  (Get (query r) "since" = "" /\ d = None) \/
    (exists d', time_ParseDuration (Get (query r) "since") = Ok d' /\
                d = Some d') ->
  (Get (query r) "regex" = "" /\ re = None) \/
    (exists re', Get (query r) "regex" <> "" /\
                 regexp_Compile (Get (query r) "regex") = Ok re' /\
                 re = Some re') ->
  handleLogs now s r =
    logs_response r (filter (fun entry => kept_by now d re entry) (Logs session))
  /\
  (forall entry,
     entry ∈ filter (fun entry => kept_by now d re entry) (Logs session) <->
     entry ∈ Logs session /\
     kept_by now d None entry /\ kept_by now None re entry) /\
  (exists matched,
     regexFilter (Get (query r) "regex") (Logs session) = Ok matched /\
     sinceFilter now (Get (query r) "since") matched =
       Ok (filter (fun entry => kept_by now d re entry) (Logs session))) /\
  (forall d' entry,
     d = Some d' ->
     (kept_by now d None entry <-> (cutoff_of now d' < Timestamp entry)%Z) /\
     ((MinDuration < d' <= MaxDuration)%Z -> cutoff_of now d' = (now - d')%Z) /\
     (d' = MinDuration -> cutoff_of now d' = (now - 2 ^ 63)%Z)).
Proof.
  intros Hok Hdev Hfound Hsince Hregex.
  assert (Hboth : forall logs : list LogEntry,
    filter (fun entry => kept_by now None re entry)
      (filter (fun entry => kept_by now d None entry) logs) =
    filter (fun entry => kept_by now d re entry) logs).
  { intros logs. rewrite list_filter_filter. apply list_filter_iff.
    intros entry. rewrite (kept_by_both now d re). tauto. }
  assert (Hboth' : forall logs : list LogEntry,
    filter (fun entry => kept_by now d None entry)
      (filter (fun entry => kept_by now None re entry) logs) =
    filter (fun entry => kept_by now d re entry) logs).
  { intros logs. rewrite list_filter_filter. apply list_filter_iff.
    intros entry. rewrite (kept_by_both now d re). tauto. }
  split; [|split; [|split]].
  - rewrite (handleLogs_found _ _ _ session) by done.
    rewrite (sinceFilter_kept now _ d) by done.
    rewrite (regexFilter_kept now _ re) by done.
    by rewrite Hboth.
  - intros entry. rewrite list_elem_of_filter, (kept_by_both now d re). tauto.
  - eexists. split; [by apply (regexFilter_kept now _ re)|].
    rewrite (sinceFilter_kept now _ d) by done. by rewrite Hboth'.
  - intros d' entry ->. split; [|split].
    + unfold kept_by. rewrite andb_true_r. apply After_spec.
    + apply cutoff_of_exact.
    + intros ->. rewrite cutoff_of_MinDuration. unfold MinDuration. lia.
Qed.

Lemma render_text_app logs1 logs2 :
  render_text (logs1 ++ logs2) = render_text logs1 +:+ render_text logs2.
Proof.
  induction logs1 as [|entry logs1 IH]; [done|].
  simpl. rewrite IH. by rewrite !string_app_assoc.
Qed.

Lemma run_no_connect d tr : forall s,
  connects_of d tr s = [] -> sessions (run tr s) !! d = sessions s !! d.
Proof.
  induction tr as [|ev tr IH]; intros s Hnone; [done|].
  rewrite run_cons. simpl in Hnone.
  destruct (connect_of d ev s) as [lc|] eqn:Hev; [done|].
  rewrite IH by done. by apply exec_no_connect.
Qed.

(** X12: what is ingested is what is returned.  While the producer of
    a device does not reconnect, a request for the logs of the device
    without filters returns the entries the session had, followed by the
    entries of the frames that arrived on it since, one per frame, in
    their order of arrival, whatever else the server did in between; in
    the text format the transcript is the earlier transcript followed by
    the lines of the new entries. *)
Theorem handleLogs_returns_frames now s tr r l session :
  Get (query r) "secret" = secret s ->
  device_of_path "/logs/" (path r) <> "" ->
  sessions s !! device_of_path "/logs/" (path r) = Some l ->
  heap s !! l = Some session ->
  connects_of (device_of_path "/logs/" (path r)) tr s = [] ->
  Get (query r) "since" = "" ->
  Get (query r) "regex" = "" ->
  handleLogs now (run tr s) r =
    logs_response r (Logs session ++ (entry_of <$> frames_of l tr)) /\
  render_text (Logs session ++ (entry_of <$> frames_of l tr)) =
    render_text (Logs session) +:+ render_text (entry_of <$> frames_of l tr).
Proof.
  intros Hok Hdev Hreg Hl Hnone Hsince Hregex.
  split; [|apply render_text_app].
  destruct (run_session_logs tr s l session Hl)
    as (session' & Hl' & _ & Hlogs).
  rewrite (handleLogs_found _ _ _ session').
  - rewrite Hsince, Hregex. simpl. by rewrite Hlogs.
  - by rewrite run_secret.
  - done.
  - unfold lookup_session. rewrite run_no_connect by done. by rewrite Hreg.
Qed.

(** X13: a reconnect gives a fresh session.  After a producer connect
    of a device that succeeds, a request for the logs of the device
    without filters returns no entry, whatever the device had logged
    before. *)
Theorem reconnect_clears_logs now now' r r' s :
  Get (query r) "secret" = secret s ->
  Get (query r) "device" <> "" ->
  Get (query r') "secret" = secret s ->
  device_of_path "/logs/" (path r') = Get (query r) "device" ->
  Get (query r') "since" = "" ->
  Get (query r') "regex" = "" ->
  handleLogs now' (handleStream now true r s).2 r' = logs_response r' [].
Proof.
  intros Hok Hdev Hok' Hpath Hsince Hregex.
  rewrite handleStream_accepted by done. simpl.
  rewrite (handleLogs_found _ _ _ (new_session now r (length (conns s)))).
  - rewrite Hsince, Hregex. done.
  - done.
  - by rewrite Hpath.
  - rewrite Hpath. unfold lookup_session. simpl.
    rewrite lookup_insert_eq. by apply list_lookup_middle.
Qed.

End Transcript.

Lemma handleLogs_filters_intersect_witness :
  let go := Fragment.fragment in
  let s := run three_entries_run (NewServer "s3cret") in
  let r := logs_abc [("since", "5m"); ("regex", "Error"); ("format", "text")] in
  handleLogs (seconds 1002 + minutes 5) s r =
    logs_response r [{| Timestamp := seconds 1003; Message := "Error C" |}].
Proof.
  intros go s r.
  destruct (handleLogs_filters_intersect (go := go) (seconds 1002 + minutes 5)
              s r
              {| DeviceHash := "abc"; Name := "phone"; IPv4 := ""; IPv6 := "";
                 Connected := seconds 900;
                 Logs := [{| Timestamp := seconds 1001; Message := "Error A" |};
                          {| Timestamp := seconds 1002; Message := "Info B" |};
                          {| Timestamp := seconds 1003; Message := "Error C" |}];
                 LogCount := 3; conn := Some 0; tailConns := [] |}
              (Some (minutes 5)) (Some (Fragment.contains "Error")))
    as (Hanswer & _).
  - reflexivity.
  - vm_compute. discriminate.
  - vm_compute. reflexivity.
  - right. exists (minutes 5). split; reflexivity.
  - right. exists (Fragment.contains "Error").
    split; [vm_compute; discriminate|]. split; reflexivity.
  - rewrite Hanswer. vm_compute. reflexivity.
Defined.

Lemma handleLogs_returns_frames_witness :
  let go := Fragment.fragment in
  handleLogs (seconds 2000)
    (run (List.tail three_entries_run) connected_server)
    (logs_abc [("format", "text")])
  = logs_response (logs_abc [("format", "text")])
      [{| Timestamp := seconds 1001; Message := "Error A" |};
       {| Timestamp := seconds 1002; Message := "Info B" |};
       {| Timestamp := seconds 1003; Message := "Error C" |}].
Proof.
  intros go.
  destruct (handleLogs_returns_frames (go := go) (seconds 2000)
              connected_server (List.tail three_entries_run)
              (logs_abc [("format", "text")]) 0 connected_session)
    as (Hanswer & _);
    [reflexivity | vm_compute; discriminate | reflexivity | reflexivity
    | reflexivity | reflexivity | reflexivity |].
  rewrite Hanswer. vm_compute. reflexivity.
Defined.

Lemma reconnect_clears_logs_witness :
  let go := Fragment.fragment in
  handleLogs (seconds 2000)
    (handleStream (seconds 1500) true stream_abc one_entry_server).2
    (logs_abc [("format", "text")])
  = {| status := StatusOK; content_type := "text/plain"; body := "" |}.
Proof.
  intros go.
  apply (reconnect_clears_logs (go := go) (seconds 1500) (seconds 2000)
           stream_abc (logs_abc [("format", "text")]) one_entry_server);
    [reflexivity | vm_compute; discriminate | reflexivity | reflexivity
    | reflexivity | reflexivity].
Defined.

(** ** Attach and detach *)

Lemma remove_conn_snoc c tcs : c ∉ tcs -> remove_conn c (tcs ++ [c]) = tcs.
Proof.
  induction tcs as [|x tcs IH]; intros Hc; simpl.
  - by rewrite decide_True.
  - apply not_elem_of_cons in Hc as [Hne Hc].
    rewrite decide_False by done. by rewrite IH.
Qed.

Section Detach.
Context {go : GoLib}.

(** X14: attach then detach is a round trip.  When a consumer attaches
    in a state the server has reached and its connection ends before
    anything else happens, the registry and every session, the consumer
    set of its session included, are exactly as before the attach; what
    remains is the connection of the consumer, closed, with nothing
    received. *)
Theorem tail_attach_detach_round_trip k tr r l c s2 :
  let s := run tr (NewServer k) in
  handleTail true r s = (Tailing l c, s2) ->
  c = length (conns s) /\
  sessions (tail_closed l c s2) = sessions s /\
  heap (tail_closed l c s2) = heap s /\
  conns (tail_closed l c s2) =
    conns s ++ [{| closed := true; inbox := []; writes := 0 |}].
Proof.
  intros s Htail.
  destruct (handleTail_outcome true r s) as [Hno|(l' & Hreg & Hatt)].
  { rewrite Htail in Hno. simpl in Hno. subst s2.
    unfold handleTail in Htail.
    destruct (negb (checkSecret s r)); [done|].
    destruct (String.eqb _ ""); [done|].
    destruct (sessions s !! _); [|done]. simpl in Htail.
    injection Htail as _ _ Hs1. exfalso.
    apply (f_equal (fun s => length (conns s))) in Hs1.
    simpl in Hs1. rewrite length_app in Hs1. simpl in Hs1. lia. }
  rewrite Htail in Hatt. injection Hatt as -> -> ->.
  pose proof (consumers_wf_reachable k tr) as (_ & Hlt & _). fold s in Hlt.
  split; [done|]. split; [done|]. split.
  - simpl. rewrite list_alter_alter_eq.
    rewrite <- (list_alter_id id (heap s) l') at 2 by done.
    apply list_alter_ext; [|done].
    intros session Hl. simpl.
    rewrite remove_conn_snoc.
    + by destruct session.
    + intros Hin. rewrite <- (tails_of_lookup s l' session Hl) in Hin.
      apply Hlt in Hin. lia.
  - simpl. unfold Close.
    rewrite <- (Nat.add_0_r (length (conns s))) at 1.
    by rewrite alter_app_r.
Qed.

End Detach.

Lemma tail_attach_detach_round_trip_witness :
  let go := Fragment.fragment in
  heap (tail_closed 0 1 tailed_server) = heap connected_server /\
  conns (tail_closed 0 1 tailed_server) =
    conns connected_server ++ [{| closed := true; inbox := []; writes := 0 |}].
Proof.
  intros go.
  destruct (tail_attach_detach_round_trip (go := go) "s3cret"
              [EvStream (seconds 900) true stream_abc] tail_abc 0 1
              tailed_server)
    as (_ & _ & Hheap & Hconns); [vm_compute; reflexivity|].
  split; [exact Hheap | exact Hconns].
Defined.

(** ** The device of a path *)

Lemma append_cons x (a b : string) : String x a +:+ b = String x (a +:+ b).
Proof. reflexivity. Qed.

Lemma length_append (a b : string) :
  String.length (a +:+ b) = String.length a + String.length b.
Proof.
  induction a as [|x a IH]; [done|].
  rewrite append_cons. simpl. by rewrite IH.
Qed.

Lemma prefix_append (p s : string) : String.prefix p (p +:+ s) = true.
Proof.
  induction p as [|x p IH]; [by destruct s|].
  rewrite append_cons. simpl.
  destruct (ascii_dec x x); [exact IH|done].
Qed.

Lemma substring_all (s : string) : String.substring 0 (String.length s) s = s.
Proof. induction s as [|x s IH]; [done|]. simpl. by rewrite IH. Qed.

Lemma substring_append_r (p s : string) :
  String.substring (String.length p) (String.length s) (p +:+ s) = s.
Proof.
  induction p as [|x p IH]; [apply substring_all|].
  rewrite append_cons. simpl. exact IH.
Qed.

Lemma substring_append_l (p s : string) :
  String.substring 0 (String.length p) (p +:+ s) = p.
Proof.
  induction p as [|x p IH]; [by destruct s|].
  rewrite append_cons. simpl. by rewrite IH.
Qed.

Lemma TrimPrefix_append (p s : string) : TrimPrefix (p +:+ s) p = s.
Proof.
  unfold TrimPrefix. rewrite prefix_append, length_append.
  replace (String.length p + String.length s - String.length p)
    with (String.length s) by lia.
  apply substring_append_r.
Qed.

Lemma HasSuffix_append (d suffix : string) : HasSuffix (d +:+ suffix) suffix = true.
Proof.
  unfold HasSuffix. rewrite length_append.
  replace (String.length d + String.length suffix - String.length suffix)
    with (String.length d) by lia.
  rewrite substring_append_r, String.eqb_refl, andb_true_r.
  apply Nat.leb_le. lia.
Qed.

Lemma TrimSuffix_append (d suffix : string) : TrimSuffix (d +:+ suffix) suffix = d.
Proof.
  unfold TrimSuffix. rewrite HasSuffix_append, length_append.
  replace (String.length d + String.length suffix - String.length suffix)
    with (String.length d) by lia.
  apply substring_append_l.
Qed.

Lemma length_substring_le n m (s : string) :
  String.length (String.substring n m s) <= m.
Proof.
  revert n m. induction s as [|x s IH]; intros [|n] [|m]; simpl; try lia.
  - specialize (IH 0 m). lia.
  - apply IH.
  - apply IH.
Qed.

(** X15: the device a path names.  Under a route, the path of a device
    followed by a closing slash names the device; the path of a device
    alone names the device when the device does not end in a slash; when
    it does, exactly one slash is cut and the path names another, shorter
    device: a producer can connect under a device that ends in a slash,
    but the path made of the route and that device does not lead to its
    logs or its live stream. *)
Theorem device_of_path_names_device route d :
  device_of_path route (route +:+ d +:+ "/") = d /\
  (HasSuffix d "/" = false -> device_of_path route (route +:+ d) = d) /\
  (HasSuffix d "/" = true ->
   device_of_path route (route +:+ d) <> d /\
   String.length (device_of_path route (route +:+ d)) < String.length d).
Proof.
  unfold device_of_path. rewrite !TrimPrefix_append.
  split; [apply TrimSuffix_append|]. split.
  - intros Hno. unfold TrimSuffix. by rewrite Hno.
  - intros Hyes.
    assert (Hshort : String.length (TrimSuffix d "/") < String.length d).
    { unfold TrimSuffix. rewrite Hyes.
      pose proof (length_substring_le 0 (String.length d - 1) d) as Hle.
      simpl String.length in *.
      unfold HasSuffix in Hyes. apply andb_true_iff in Hyes as [Hlen _].
      apply Nat.leb_le in Hlen. simpl in Hlen. lia. }
    split; [|done]. intros Heq. rewrite Heq in Hshort. lia.
Qed.

Lemma device_of_path_names_device_witness :
  device_of_path "/logs/" "/logs/abc" = "abc" /\
  device_of_path "/logs/" "/logs/abc/" = "abc" /\
  String.length (device_of_path "/tail/" "/tail/abc/") < String.length "abc/".
Proof.
  destruct (device_of_path_names_device "/logs/" "abc") as (H2 & H1 & _).
  destruct (device_of_path_names_device "/tail/" "abc/") as (_ & _ & Hslash).
  destruct Hslash as [_ H3]; [reflexivity|].
  split; [apply H1; reflexivity|]. split; [exact H2 | exact H3].
Defined.

(** ** The pass of the broadcast, exactly *)

Section Exactly.
Context {go : GoLib}.

(** X16: what one pass of the broadcast changes, in any state the
    server has reached.  The consumer set of the session becomes the
    consumers whose write was delivered, in their order; the consumer
    sets of the other sessions, the registry and the logs of every
    session are unchanged; each consumer of the session has been written
    to exactly once, delivered or not, and no other connection has been
    written to. *)
Theorem broadcastToTail_exact k tr accept l entry :
  let s := run tr (NewServer k) in
  let s' := broadcastToTail accept l entry s in
  sessions s' = sessions s /\
  (forall l',
     tails_of s' l' =
       if decide (l' = l)
       then filter (fun c => delivers accept (conns s) c) (tails_of s l)
       else tails_of s l') /\
  (forall l', Logs <$> heap s' !! l' = Logs <$> heap s !! l') /\
  (forall c,
     writes <$> conns s' !! c =
       (if decide (c ∈ tails_of s l) then S else id) <$>
         (writes <$> conns s !! c)).
Proof.
  intros s s'.
  pose proof (consumers_wf_reachable k tr) as (Hnd & Hlt & _).
  fold s in Hnd, Hlt.
  split; [apply broadcastToTail_sessions|].
  split; [intros l'; apply broadcastToTail_tails|]. split.
  - intros l'. unfold s'. rewrite broadcastToTail_heap.
    by destruct (heap s !! l').
  - intros c. destruct (decide (c ∈ tails_of s l)) as [Hc|Hc].
    + destruct (lookup_lt_is_Some_2 (conns s) c) as [k0 Hk0];
        [by apply (Hlt l)|].
      rewrite Hk0. simpl.
      destruct (decide (delivers accept (conns s) c)) as [Hd|Hd].
      * unfold s'. by rewrite (broadcastToTail_conn_delivered _ _ _ _ _ k0).
      * unfold s'. by rewrite (broadcastToTail_conn_dead _ _ _ _ _ k0).
    + unfold s'. rewrite broadcastToTail_conn_other by done.
      by destruct (conns s !! c).
Qed.

(** X17: a session does not interfere with the others.  Frames of the
    producer of one session, however many, leave the registry as it is,
    leave every other session as it is, logs and consumer set included,
    and leave every connection that is not a consumer of that session
    as it is: nothing is written to it and it is not closed. *)
Theorem frames_touch_one_session l fs : forall s,
  sessions (run (frames_on l fs) s) = sessions s /\
  (forall l', l' <> l -> heap (run (frames_on l fs) s) !! l' = heap s !! l') /\
  (forall c, c ∉ tails_of s l ->
             conns (run (frames_on l fs) s) !! c = conns s !! c).
Proof.
  induction fs as [|f fs IH]; intros s; [done|].
  destruct f as [[now accept] message].
  change (frames_on l ((now, accept, message) :: fs))
    with (EvFrame now accept l message :: frames_on l fs).
  rewrite run_cons. cbn [exec].
  destruct (IH (stream_frame now accept l message s)) as (Hsess & Hheap & Hconns).
  split; [|split].
  - rewrite Hsess. by destruct (stream_frame_sessions now accept l message s).
  - intros l' Hne. rewrite Hheap by done.
    rewrite stream_frame_eq, broadcastToTail_heap.
    assert (Hstored : heap (stored (parse_entry now message) l s) !! l' =
                      heap s !! l')
      by (simpl; by rewrite list_lookup_alter_ne).
    rewrite Hstored. destruct (heap s !! l') as [session|]; [|done]. simpl.
    rewrite decide_False by done. by rewrite set_tailConns_same.
  - intros c Hc. rewrite Hconns.
    + by apply stream_frame_conn_other.
    + rewrite stream_frame_tails, decide_True by done.
      rewrite list_elem_of_filter. tauto.
Qed.

End Exactly.

Lemma frames_touch_one_session_witness :
  let go := Fragment.fragment in
  let s := run two_devices_run (NewServer "s3cret") in
  let s' := run (frames_on 0 [(seconds 1001, fun _ => true, "E1");
                              (seconds 1002, fun _ => false, "E2")]) s in
  heap s' !! 1 = heap s !! 1 /\ conns s' !! 2 = conns s !! 2.
Proof.
  intros go s s'.
  destruct (frames_touch_one_session (go := go) 0
              [(seconds 1001, fun _ => true, "E1");
               (seconds 1002, fun _ => false, "E2")] s)
    as (_ & Hheap & Hconns).
  split; [apply Hheap; lia|]. apply Hconns.
  vm_compute. intros Hin. by apply elem_of_nil in Hin.
Defined.

(** ** What changes the answer of a query *)

Section Stable.
Context {go : GoLib}.

(** X18: a producer connect whose websocket upgrade fails changes
    nothing: the session in place for the device is not evicted, its
    producer connection is not closed and no session is created. *)
Theorem handleStream_upgrade_failure_keeps_state now r s :
  Get (query r) "secret" = secret s ->
  Get (query r) "device" <> "" ->
  handleStream now false r s = (UpgradeFailed, s).
Proof.
  intros Hok Hdev. apply checkSecret_true in Hok.
  apply String.eqb_neq in Hdev.
  unfold handleStream. by rewrite Hok, Hdev.
Qed.

(** X19: in a state the server has reached, the answer to a request
    for the logs of a device changes only through that device: an event
    that is neither a producer connect of the device nor a frame on the
    session the registry returns for it leaves the answer as it is.  So
    the producer going away, consumers attaching, leaving or being
    pruned, and whatever other devices do, change nothing of what the
    request returns. *)
Theorem handleLogs_changes_only_through_device k tr ev now r :
  let s := run tr (NewServer k) in
  connect_of (device_of_path "/logs/" (path r)) ev s = None ->
  (forall l now' accept message,
     sessions s !! device_of_path "/logs/" (path r) = Some l ->
     ev <> EvFrame now' accept l message) ->
  handleLogs now (exec ev s) r = handleLogs now s r.
Proof.
  intros s Hconnect Hframe.
  set (d := device_of_path "/logs/" (path r)) in *.
  assert (Hlogs : Logs <$> lookup_session (exec ev s) d =
                  Logs <$> lookup_session s d).
  { unfold lookup_session. rewrite (exec_no_connect d ev s Hconnect).
    destruct (sessions s !! d) as [l|] eqn:Hd; [|done].
    destruct (registry_named_reachable k tr d l Hd) as (session & Hl & _).
    fold s in Hl.
    destruct (exec_session ev s l session Hl)
      as (session' & Hl' & _ &
          [[Heq _]|(now' & accept & message & Hev & _)]).
    - rewrite Hl, Hl'. simpl. by rewrite Heq.
    - by destruct (Hframe l now' accept message eq_refl Hev). }
  unfold handleLogs, checkSecret. rewrite exec_secret.
  destruct (negb _); [done|].
  change (TrimSuffix (TrimPrefix (path r) "/logs/") "/") with d.
  destruct (String.eqb d ""); [done|].
  destruct (lookup_session (exec ev s) d) as [session'|],
           (lookup_session s d) as [session|]; simpl in Hlogs; try done.
  injection Hlogs as ->. done.
Qed.

End Stable.

Lemma handleStream_upgrade_failure_keeps_state_witness :
  handleStream (seconds 1500) false stream_abc one_entry_server
  = (UpgradeFailed, one_entry_server).
Proof.
  apply (handleStream_upgrade_failure_keeps_state (seconds 1500) stream_abc
           one_entry_server); [reflexivity | vm_compute; discriminate].
Defined.

Lemma handleLogs_changes_only_through_device_witness :
  let go := Fragment.fragment in
  handleLogs (seconds 2000)
    (exec (EvStreamClosed 0) (run one_entry_run (NewServer "s3cret")))
    (logs_abc [("format", "text")])
  = handleLogs (seconds 2000) (run one_entry_run (NewServer "s3cret"))
      (logs_abc [("format", "text")]).
Proof.
  intros go.
  apply (handleLogs_changes_only_through_device (go := go) "s3cret"
           one_entry_run (EvStreamClosed 0) (seconds 2000)
           (logs_abc [("format", "text")])); [reflexivity|].
  intros l now' accept message _. discriminate.
Defined.

(** ** The roles of the connections *)

Section Roles.
Context {go : GoLib}.

Lemma roles_apart_exec ev s :
  producers_wf s -> consumers_wf s -> roles_apart s ->
  roles_apart (exec ev s).
Proof.
  intros Hprod (_ & Hlt & _) Hroles l l' session' c Hl' Hconn Hin.
  destruct (heap s !! l) as [session|] eqn:Hl.
  - destruct (exec_session ev s l session Hl)
      as (session'' & Hl'' & (_ & _ & _ & _ & _ & Hc) & _).
    rewrite Hl' in Hl''. injection Hl'' as <-. rewrite <- Hc in Hconn.
    apply exec_tails in Hin as [Hin| ->].
    + by apply (Hroles l l' session c).
    + destruct (Hprod l session Hl) as (c' & Hc' & Hlen & _).
      rewrite Hconn in Hc'. injection Hc' as <-. lia.
  - destruct (exec_heap_new ev s l session' Hl Hl')
      as (now & r & -> & _ & -> & _). simpl in Hconn. injection Hconn as <-.
    simpl in Hin. rewrite handleStream_tails in Hin.
    apply Hlt in Hin. lia.
Qed.

Lemma roles_apart_run tr : forall s,
  producers_wf s -> consumers_wf s -> roles_apart s ->
  roles_apart (run tr s).
Proof.
  induction tr as [|ev tr IH]; intros s Hprod Hcons Hroles; [done|].
  rewrite run_cons. apply IH.
  - by apply producers_wf_exec.
  - by apply consumers_wf_exec.
  - by apply roles_apart_exec.
Qed.

(** X20: every connection has one role.  In every state the server
    reaches, a consumer is attached once, to one session, and is a
    connection of the server, and no connection is both the producer
    handle of a session and a consumer: evicting or closing a producer
    never closes a consumer, and pruning a consumer never closes a
    producer. *)
Theorem reachable_connection_roles k tr :
  let s := run tr (NewServer k) in
  (forall l, NoDup (tails_of s l)) /\
  (forall l c, c ∈ tails_of s l -> c < length (conns s)) /\
  (forall l1 l2 c, c ∈ tails_of s l1 -> c ∈ tails_of s l2 -> l1 = l2) /\
  (forall l l' session c,
     heap s !! l = Some session -> conn session = Some c ->
     c ∈ tails_of s l' -> False).
Proof.
  intros s.
  destruct (consumers_wf_reachable k tr) as (Hnd & Hlt & Hone).
  split; [done|]. split; [done|]. split; [done|].
  apply (roles_apart_run tr (NewServer k)).
  - intros l session Hl. by rewrite heap_NewServer in Hl.
  - apply consumers_wf_NewServer.
  - intros l l' session c Hl. by rewrite heap_NewServer in Hl.
Qed.

End Roles.

Lemma reachable_connection_roles_witness :
  let go := Fragment.fragment in
  let s := run two_devices_run (NewServer "s3cret") in
  tails_of s 1 = [2] /\ NoDup (tails_of s 1) /\ 2 < length (conns s).
Proof.
  intros go s.
  destruct (reachable_connection_roles (go := go) "s3cret" two_devices_run)
    as (Hnd & Hlt & _).
  split; [vm_compute; reflexivity|]. split; [apply Hnd|].
  apply (Hlt 1). vm_compute. left.
Defined.

(** * The server at the grain of its critical sections *)

Section Grain.
Context {go : GoLib}.

Lemma steps_cons st sts s : steps (st :: sts) s = steps sts (step st s).
Proof. reflexivity. Qed.

Lemma steps_events tr : forall s, steps (StEvent <$> tr) s = run tr s.
Proof.
  induction tr as [|ev tr IH]; intros s; [done|].
  rewrite fmap_cons, steps_cons, run_cons. apply IH.
Qed.

(** A frame is its append followed by its broadcast. *)
Lemma frame_is_store_then_forward now accept l message s :
  exec (EvFrame now accept l message) s =
    steps [StStore now l message;
           StForward accept l (parse_entry now message)] s.
Proof. reflexivity. Qed.


Lemma step_length_conns st s :
  length (conns s) <= length (conns (step st s)).
Proof.
  destruct st as [ev|now l message|accept l entry]; simpl.
  - apply exec_length_conns.
  - done.
  - by rewrite broadcastToTail_length_conns.
Qed.

(** A step attaches at most the connection it creates. *)
Lemma step_tails st s l c :
  c ∈ tails_of (step st s) l -> c ∈ tails_of s l \/ c = length (conns s).
Proof.
  destruct st as [ev|now l0 message|accept l0 entry]; simpl.
  - apply exec_tails.
  - rewrite tails_of_stored. by left.
  - rewrite broadcastToTail_tails. case_decide; [subst l|by left].
    rewrite list_elem_of_filter. intros [_ Hc]. by left.
Qed.

Lemma consumers_wf_step st s : consumers_wf s -> consumers_wf (step st s).
Proof.
  intros Hwf. destruct st as [ev|now l0 message|accept l0 entry]; simpl.
  - by apply consumers_wf_exec.
  - apply (consumers_wf_shrink s); [done| |done].
    intros l. by rewrite tails_of_stored.
  - apply (consumers_wf_shrink s); [done| |].
    + intros l. rewrite broadcastToTail_tails. case_decide; [subst l|done].
      apply sublist_filter.
    + by rewrite broadcastToTail_length_conns.
Qed.

Lemma consumers_wf_steps sts : forall s,
  consumers_wf s -> consumers_wf (steps sts s).
Proof.
  induction sts as [|st sts IH]; intros s Hwf; [done|].
  rewrite steps_cons. apply IH. by apply consumers_wf_step.
Qed.

Lemma registry_wf_step st s : registry_wf s -> registry_wf (step st s).
Proof.
  intros Hwf. destruct st as [ev|now l0 message|accept l0 entry]; simpl.
  - by apply registry_wf_exec.
  - intros d l Hd. simpl in *. rewrite length_alter. by apply (Hwf d).
  - intros d l Hd.
    destruct (broadcastToTail_sessions accept l0 entry s) as [Hs _].
    rewrite Hs in Hd. rewrite broadcastToTail_length_heap. by apply (Hwf d).
Qed.

Lemma registry_wf_steps sts : forall s,
  registry_wf s -> registry_wf (steps sts s).
Proof.
  induction sts as [|st sts IH]; intros s Hwf; [done|].
  rewrite steps_cons. apply IH. by apply registry_wf_step.
Qed.

Lemma registry_wf_NewServer k : registry_wf (NewServer k).
Proof. intros d l Hd. simpl in Hd. by rewrite lookup_empty in Hd. Qed.

(** A detached connection stays detached, and no step writes to it. *)
Lemma step_detached st s c :
  c < length (conns s) -> detached c s ->
  detached c (step st s) /\
  inbox <$> conns (step st s) !! c = inbox <$> conns s !! c.
Proof.
  intros Hlt Hdet. split.
  { intros l Hc. apply step_tails in Hc as [Hc| ->]; [|lia].
    by apply (Hdet l). }
  destruct st as [ev|now l0 message|accept l0 entry]; simpl.
  - by destruct (exec_detached ev s c Hlt Hdet) as (_ & _ & ->).
  - done.
  - by rewrite broadcastToTail_conn_other by apply Hdet.
Qed.

Lemma steps_detached sts c : forall s,
  c < length (conns s) -> detached c s ->
  inbox <$> conns (steps sts s) !! c = inbox <$> conns s !! c.
Proof.
  induction sts as [|st sts IH]; intros s Hlt Hdet; [done|].
  rewrite steps_cons.
  destruct (step_detached st s c Hlt Hdet) as [Hdet1 Hi1].
  rewrite IH; [done| |done].
  pose proof (step_length_conns st s). lia.
Qed.

(** Whatever the server does, a consumer of a session is afterwards a
    consumer of the same session or detached. *)
Lemma step_attached_or_detached st s l c :
  consumers_wf s -> c ∈ tails_of s l ->
  c ∈ tails_of (step st s) l \/ detached c (step st s).
Proof.
  intros (Hnd & Hlt & Hone) Hc.
  destruct (decide (c ∈ tails_of (step st s) l)) as [Hin|Hout]; [by left|].
  right. intros l' Hin.
  destruct (decide (l' = l)) as [->|Hne]; [done|].
  apply step_tails in Hin as [Hin| ->].
  - apply Hne. by apply (Hone l' l c).
  - apply Hlt in Hc. lia.
Qed.

(** A step that forwards a message to the consumers of a session keeps
    the consumers that take the write, which have received the message,
    and closes the others, which have not. *)
Lemma step_forwards st s l accept msg :
  forward_of l st = Some (accept, msg) ->
  tails_of (step st s) l =
    filter (fun c => delivers accept (conns s) c) (tails_of s l) /\
  (forall c k,
     NoDup (tails_of s l) -> c ∈ tails_of s l -> conns s !! c = Some k ->
     conns (step st s) !! c =
       Some (if delivers accept (conns s) c
             then {| closed := false; inbox := inbox k ++ [msg];
                     writes := S (writes k) |}
             else {| closed := true; inbox := inbox k;
                     writes := S (writes k) |})).
Proof.
  destruct st as [[now up r|now accept0 l0 message|c0|up r|l0 c0]
                 |now l0 message|accept0 l0 entry]; simpl; try done.
  - destruct (Nat.eqb_spec l0 l) as [->|_]; [|done]. intros [= <- <-].
    split; [by rewrite stream_frame_tails, decide_True|].
    intros c k Hnd Hc Hk.
    destruct (delivers accept0 (conns s) c) eqn:Hd.
    + apply stream_frame_conn_delivered; try done. by rewrite Hd.
    + apply stream_frame_conn_dead; try done. rewrite Hd. by intros [].
  - destruct (Nat.eqb_spec l0 l) as [->|_]; [|done]. intros [= <- <-].
    split; [by rewrite broadcastToTail_tails, decide_True|].
    intros c k Hnd Hc Hk.
    destruct (delivers accept0 (conns s) c) eqn:Hd.
    + apply broadcastToTail_conn_delivered; try done. by rewrite Hd.
    + apply broadcastToTail_conn_dead; try done. rewrite Hd. by intros [].
Qed.

(** Only a step that forwards to the consumers of its session changes
    what a consumer has received. *)
Lemma step_inbox_other st s l c :
  consumers_wf s -> c ∈ tails_of s l -> forward_of l st = None ->
  inbox <$> conns (step st s) !! c = inbox <$> conns s !! c.
Proof.
  intros Hwf Hc Hnone.
  destruct st as [ev|now l0 message|accept l0 entry]; simpl.
  - apply (exec_inbox_other ev s l c Hwf Hc).
    intros now accept message ->. simpl in Hnone.
    by rewrite Nat.eqb_refl in Hnone.
  - done.
  - simpl in Hnone. destruct (Nat.eqb_spec l0 l) as [|Hne]; [done|].
    rewrite broadcastToTail_conn_other; [done|].
    intros Hin. destruct Hwf as (_ & _ & Hone).
    by apply Hne, (Hone l0 l c).
Qed.

(** What a consumer of a session has received after some steps is what
    it had received before, followed by the messages the steps
    forwarded to the consumers of the session, in their order, up to
    some point. *)
Lemma steps_reach_consumer l c post : forall s k,
  consumers_wf s -> c < length (conns s) -> conns s !! c = Some k ->
  c ∈ tails_of s l \/ detached c s ->
  exists n, inbox <$> conns (steps post s) !! c =
            Some (inbox k ++ take n (forwards_of l post)).
Proof.
  induction post as [|st post IH]; intros s k Hwf Hlen Hk Hatt.
  { exists 0. simpl. rewrite Hk. simpl. by rewrite app_nil_r. }
  destruct Hatt as [Hc|Hdet]; cycle 1.
  { exists 0. rewrite (steps_detached (st :: post) c s) by done.
    rewrite Hk. simpl. by rewrite app_nil_r. }
  rewrite steps_cons.
  assert (Hwf1 : consumers_wf (step st s)) by by apply consumers_wf_step.
  assert (Hlen1 : c < length (conns (step st s)))
    by (pose proof (step_length_conns st s); lia).
  pose proof (step_attached_or_detached st s l c Hwf Hc) as Hatt1.
  pose proof Hwf as (Hnd & Hlt & Hone).
  cbn [forwards_of].
  destruct (forward_of l st) as [[accept msg]|] eqn:Hfw.
  - destruct (step_forwards st s l accept msg Hfw) as [Htails Hconn].
    specialize (Hconn c k (Hnd l) Hc Hk).
    destruct (delivers accept (conns s) c) eqn:Hd.
    + destruct (IH _ _ Hwf1 Hlen1 Hconn Hatt1) as [n Hn].
      exists (S n). simpl in Hn |- *. rewrite Hn. by rewrite <- app_assoc.
    + assert (Hdet : detached c (step st s)).
      { destruct Hatt1 as [Hin|Hdet]; [|done].
        rewrite Htails in Hin. apply list_elem_of_filter in Hin as [Hin _].
        by rewrite Hd in Hin. }
      exists 0. rewrite (steps_detached post c (step st s)) by done.
      rewrite Hconn. simpl. by rewrite app_nil_r.
  - pose proof (step_inbox_other st s l c Hwf Hc Hfw) as Hinbox.
    rewrite Hk in Hinbox. simpl in Hinbox.
    destruct (conns (step st s) !! c) as [k1|] eqn:Hk1; [|done].
    injection Hinbox as Hinbox.
    destruct (IH _ k1 Hwf1 Hlen1 Hk1 Hatt1) as [n Hn].
    exists n. by rewrite Hn, Hinbox.
Qed.

(** C4, as the code has it: a consumer attaches to a session of a
    server in any state it has reached, at the grain of the critical
    sections.  Whatever the server does afterwards, the consumer
    receives no entry whose broadcast began before it attached: what it
    has received is a prefix of the messages forwarded to the consumers
    of its session after the attach, in their order.  When only whole
    frames of the session follow and the consumer takes every write, it
    has received exactly these frames: with two entries appended and
    forwarded before the attach and one after, exactly the one
    after. *)
Theorem tail_receives_only_later_forwards k0 pre r l c s2 :
  handleTail true r (steps pre (NewServer k0)) = (Tailing l c, s2) ->
  (forall post, exists n,
     inbox <$> conns (steps post s2) !! c =
       Some (take n (forwards_of l post))) /\
  (forall fs,
     Forall (fun f : Frame => f.1.2 c = true) fs ->
     inbox <$> conns (steps (StEvent <$> frames_on l fs) s2) !! c =
       Some (forwarded <$> fs)).
Proof.
  intros Htail. set (s1 := steps pre (NewServer k0)) in *.
  destruct (handleTail_outcome true r s1) as [Hno|(l' & Hreg & Hatt)].
  { rewrite Htail in Hno. simpl in Hno. subst s2.
    unfold handleTail in Htail.
    destruct (negb (checkSecret s1 r)); [done|].
    destruct (String.eqb _ ""); [done|].
    destruct (sessions s1 !! _); [|done]. simpl in Htail.
    injection Htail as _ _ Hs1. exfalso.
    apply (f_equal (fun s => length (conns s))) in Hs1.
    simpl in Hs1. rewrite length_app in Hs1. simpl in Hs1. lia. }
  rewrite Htail in Hatt. injection Hatt as -> -> ->.
  assert (Hl : l' < length (heap s1)).
  { eapply (registry_wf_steps pre (NewServer k0) (registry_wf_NewServer k0)).
    exact Hreg. }
  assert (Hwf2 : consumers_wf (attach l' s1))
    by apply consumers_wf_attach, consumers_wf_steps, consumers_wf_NewServer.
  assert (Hc2 : length (conns s1) ∈ tails_of (attach l' s1) l').
  { rewrite tails_of_attach_eq, decide_True by done.
    apply elem_of_app. right. by apply list_elem_of_singleton. }
  assert (Hk2 : conns (attach l' s1) !! length (conns s1) =
    Some {| closed := false; inbox := []; writes := 0 |})
    by (simpl; by apply list_lookup_middle).
  split.
  - intros post.
    apply (steps_reach_consumer l' (length (conns s1)) post (attach l' s1)
             {| closed := false; inbox := []; writes := 0 |}); try done.
    + simpl. rewrite length_app. simpl. lia.
    + by left.
  - intros fs Hacc. rewrite steps_events.
    by apply (frames_reach_consumer l' (length (conns s1)) fs (attach l' s1)
                {| closed := false; inbox := []; writes := 0 |}).
Qed.




End Grain.

Lemma tail_receives_only_later_forwards_witness :
  let go := Fragment.fragment in
  let before :=
    [StEvent (EvStream (seconds 900) true stream_abc);
     StStore (seconds 1001) 0 "E1";
     StForward (fun _ => true) 0 (parse_entry (seconds 1001) "E1");
     StStore (seconds 1002) 0 "E2";
     StForward (fun _ => true) 0 (parse_entry (seconds 1002) "E2")] in
  let s2 := (handleTail true tail_abc (steps before (NewServer "s3cret"))).2 in
  inbox <$>
    conns (steps (StEvent <$>
                    frames_on 0 [(seconds 1003, fun _ => true, "E3")]) s2) !! 1
  = Some [forwarded (seconds 1003, fun _ => true, "E3")].
Proof.
  intros go before s2.
  destruct (tail_receives_only_later_forwards (go := go) "s3cret" before
              tail_abc 0 1 s2)
    as [_ Hall]; [vm_compute; reflexivity|].
  apply (Hall [(seconds 1003, fun _ => true, "E3")]). repeat constructor.
Defined.

(** C4 fails as stated: the producer of [abc] appends [E1] and
    broadcasts it, then appends [E2]; a consumer then attaches to the
    session, which holds [E1] and [E2], and has received nothing; the
    producer then broadcasts [E2], and appends and broadcasts [E3].
    The consumer has received [E2] and [E3], not exactly [E3]: [E2] was
    appended to the session before the consumer attached. *)
Lemma tail_receives_entry_appended_before_attach :
  let go := Fragment.fragment in
  let E1 := {| Timestamp := seconds 1001; Message := "E1" |} in
  let E2 := {| Timestamp := seconds 1002; Message := "E2" |} in
  let E3 := {| Timestamp := seconds 1003; Message := "E3" |} in
  let s1 :=
    steps [StEvent (EvStream (seconds 900) true stream_abc);
           StStore (seconds 1001) 0 "E1";
           StForward (fun _ => true) 0 E1;
           StStore (seconds 1002) 0 "E2"] (NewServer "s3cret") in
  let s2 := (handleTail true tail_abc s1).2 in
  let s3 :=
    steps [StForward (fun _ => true) 0 E2;
           StStore (seconds 1003) 0 "E3";
           StForward (fun _ => true) 0 E3] s2 in
  (parse_entry (seconds 1001) "E1" = E1 /\
   parse_entry (seconds 1002) "E2" = E2 /\
   parse_entry (seconds 1003) "E3" = E3) /\
  Logs <$> lookup_session s1 "abc" = Some [E1; E2] /\
  (handleTail true tail_abc s1).1 = Tailing 0 1 /\
  inbox <$> conns s2 !! 1 = Some [] /\
  Logs <$> lookup_session s3 "abc" = Some [E1; E2; E3] /\
  inbox <$> conns s3 !! 1 =
    Some [json_Marshal (LogEntry_json E2); json_Marshal (LogEntry_json E3)] /\
  inbox <$> conns s3 !! 1 <> Some [json_Marshal (LogEntry_json E3)].
Proof.
  intros go E1 E2 E3 s1 s2 s3.
  repeat split; try (vm_compute; reflexivity). vm_compute. discriminate.
Qed.


